(** * accelerInt: the Radau-IIA(5) integrator of [src/radau2a.c]

    A shallow embedding of the C solver.  C [double]s are Rocq's binary64
    primitive floats, so every arithmetic step of the source is the same
    IEEE-754 operation here; C [int]s are [Z] (none of the counters can
    overflow: they are bounded by [Max_no_steps], [NewtonMaxit] and 5);
    arrays are lists read by index.  What the file obtains from outside
    (the problem hooks [dydt] and [eval_jacob], LAPACK, libm's [pow], the
    macros [NN], [ATOL], [RTOL] of the generated header) is a parameter of
    the development. *)

From Stdlib Require Import Floats List ZArith Bool Lia Ascii Permutation.
Import ListNotations.
Set Warnings "-inexact-float".
Local Open Scope float_scope.

(** ** Doubles, <math.h> and <complex.h> *)

Definition fabs (x : float) : float := PrimFloat.abs x.

(** C99 [fmax]/[fmin]: a NaN argument is treated as missing data. *)
Definition fmax (x y : float) : float :=
  if is_nan x then y else if is_nan y then x else if x <? y then y else x.

Definition fmin (x y : float) : float :=
  if is_nan x then y else if is_nan y then x else if y <? x then y else x.

(** [x >= y] on doubles. *)
Definition geb (x y : float) : bool := y <=? x.

(** [(double) n] for an [int] n. *)
Definition of_int (n : Z) : float := of_uint63 (Uint63.of_Z n).

(** [logf(-1)]: a domain error, the result is a NaN. *)
Definition logf_neg1 : float := nan.

(** [double complex] as (re, im). *)
Definition complex : Type := (float * float)%type.
Definition creal (z : complex) : float := fst z.
Definition cimag (z : complex) : float := snd z.
Definition cadd (a b : complex) : complex := (fst a + fst b, snd a + snd b).

(** ** Arrays *)

Definition vec : Type := list float.
Definition cvec : Type := list complex.

Definition get (a : vec) (i : nat) : float := nth i a 0.
Notation "a .[ i ]" := (get a i) (at level 1, format "a .[ i ]").

(** A loop [for (i = 0; i < n; i++) out[i] = f(i);]. *)
Definition tabulate {X : Type} (n : nat) (f : nat -> X) : list X := map f (seq 0 n).

Fixpoint upd (a : vec) (i : nat) (v : float) : vec :=
  match a, i with
  | [], _ => []
  | _ :: r, O => v :: r
  | x :: r, S i' => x :: upd r i' v
  end.

(** [memset(Z, 0, NN * sizeof(double))]. *)
Definition zeros (n : nat) : vec := repeat 0 n.

(** ** Macros of radau2a.c *)

Definition Max_no_steps : Z := 200000.
Definition NewtonMaxit : nat := 8.
Definition StartNewton : bool := true.
(** [EPS] is [DBL_EPSILON] (generic/solver.hpp). *)
Definition EPS : float := 0x1p-52.
Definition Roundoff : float := EPS.
Definition FacMin : float := 0.2.
Definition FacMax : float := 8.
Definition FacSafe : float := 0.9.
Definition FacRej : float := 0.1.
Definition ThetaMin : float := 0.001.
Definition NewtonTol : float := 0.03.
Definition Qmin : float := 1.0.
Definition Qmax : float := 1.2.
Definition UNROLL : nat := 8.

(** ** Radau-IIA coefficient tables (the non-SDIRK branch) *)

Definition rkA_tab : list (list float) :=
  [
    [1.968154772236604258683861429918299e-1; -6.55354258501983881085227825696087e-2; 2.377097434822015242040823210718965e-2];
    [3.944243147390872769974116714584975e-1; 2.920734116652284630205027458970589e-1; -4.154875212599793019818600988496743e-2];
    [3.764030627004672750500754423692808e-1; 5.124858261884216138388134465196080e-1; 1.111111111111111111111111111111111e-1]
  ].
Definition rkA (i j : nat) : float := nth j (nth i rkA_tab []) 0.

Definition rkC_tab : list float :=
  [
    1.550510257216821901802715925294109e-1;
    6.449489742783178098197284074705891e-1;
    1.0
  ].
Definition rkC (i : nat) : float := nth i rkC_tab 0.

Definition rkE_tab : list float :=
  [
    0.05;
    -10.04880939982741556246032950764708 * 0.05;
    1.382142733160748895793662840980412 * 0.05;
    -0.3333333333333333333333333333333333 * 0.05
  ].
Definition rkE (i : nat) : float := nth i rkE_tab 0.

Definition rkGamma : float := 3.637834252744495732208418513577775.
Definition rkAlpha : float := 2.681082873627752133895790743211112.
Definition rkBeta : float := 3.050430199247410569426377624787569.

Definition rkT_tab : list (list float) :=
  [
    [9.443876248897524148749007950641664e-2; -1.412552950209542084279903838077973e-1; -3.00291941051474244918611170890539e-2];
    [2.502131229653333113765090675125018e-1; 2.041293522937999319959908102983381e-1; 3.829421127572619377954382335998733e-1];
    [1.0; 1.0; 0.0e0]
  ].
Definition rkT (i j : nat) : float := nth j (nth i rkT_tab []) 0.

Definition rkTinvAinv_tab : list (list float) :=
  [
    [1.520148562492775501049204957366528e+1; 1.192055789400527921212348994770778; 1.903956760517560343018332287285119];
    [-9.669512977505946748632625374449567; -8.724028436822336183071773193986487; 3.096043239482439656981667712714881];
    [-1.409513259499574544876303981551774e+1; 5.895975725255405108079130152868952; -1.441236197545344702389881889085515e-1]
  ].
Definition rkTinvAinv (i j : nat) : float := nth j (nth i rkTinvAinv_tab []) 0.

Definition rkELO : float := 4.

(** ** Memory access

    [RK_ErrorNorm] indexes a local array, so its embedding is written once
    over an access discipline and read in two ways: [checked] faults on an
    index outside the array (the C standard gives such a read no meaning);
    [flat w] is the machine's view, in which the word that follows the
    array in the frame holds [w]. *)

Record access : Type := {
  M : Type -> Type;
  ret : forall X : Type, X -> M X;
  bind : forall X Y : Type, M X -> (X -> M Y) -> M Y;
  load : vec -> nat -> M float;
  store : vec -> nat -> float -> M vec
}.
Arguments ret _ {X} _.
Arguments bind _ {X Y} _ _.

Inductive checked_result (X : Type) : Type :=
| Val (x : X)
| OutOfBounds (len idx : nat).
Arguments Val {X} x.
Arguments OutOfBounds {X} len idx.

Definition checked : access := {|
  M := checked_result;
  ret := fun X x => Val x;
  bind := fun X Y c k =>
    match c with Val x => k x | OutOfBounds l i => OutOfBounds l i end;
  load := fun a i =>
    match nth_error a i with Some v => Val v | None => OutOfBounds (length a) i end;
  store := fun a i v =>
    if (i <? length a)%nat then Val (upd a i v) else OutOfBounds (length a) i
|}.

Definition flat (w : float) : access := {|
  M := fun X => X;
  ret := fun X x => x;
  bind := fun X Y c k => k c;
  load := fun a i => nth i a w;
  store := fun a i v => upd a i v
|}.

(** A counted loop threading its state through the discipline. *)
Fixpoint for_ (m : access) {S : Type} (idx : list nat)
    (body : nat -> S -> M m S) (s : S) : M m S :=
  match idx with
  | [] => ret m s
  | i :: rest => bind m (body i s) (fun s' => for_ m rest body s')
  end.

(** The indices of [for (i = from; i < to; i += step)]. *)
Definition strided (from to step : nat) : list nat :=
  map (fun b => from + b * step)%nat (seq 0 ((to - from + step - 1) / step)).

(** [sums[slot] += scale[k] * scale[k] * DY[k] * DY[k]]. *)
Definition norm_term (m : access) (scale DY : vec) (k slot : nat) (sums : vec) : M m vec :=
  bind m (load m scale k) (fun s =>
  bind m (load m DY k) (fun d =>
  bind m (load m sums slot) (fun x =>
  store m sums slot (x + s * s * d * d)))).

(** [RK_ErrorNorm], lines 349-375.  The last loop runs [i <= UNROLL]. *)
Definition RK_ErrorNorm_in (m : access) (NN : nat) (scale DY : vec) : M m float :=
  let sums := repeat 0 UNROLL in
  let start := (NN mod UNROLL)%nat in
  bind m (if (start =? 0)%nat then ret m sums
          else for_ m (seq 0 start) (fun i => norm_term m scale DY i i) sums) (fun sums =>
  bind m (for_ m (strided start NN UNROLL) (fun i =>
            for_ m (seq 0 UNROLL) (fun j => norm_term m scale DY (i + j) j)) sums) (fun sums =>
  bind m (for_ m (seq 0 (S UNROLL)) (fun i sum =>
            bind m (load m sums i) (fun x => ret m (sum + x))) 0) (fun sum =>
  ret m (fmax (sqrt (sum / of_int (Z.of_nat NN))) 1e-10)))).

(** The norm as the specification words it:
    [max(1e-10, sqrt(mean_i (sc[i] * v[i])^2))], summed from index 0 up. *)
Definition spec_ErrorNorm (NN : nat) (sc v : vec) : float :=
  let sq (i : nat) := (sc.[i] * v.[i]) * (sc.[i] * v.[i]) in
  fmax 1e-10 (sqrt (fold_left (fun a i => a + sq i) (seq 0 NN) 0 / of_int (Z.of_nat NN))).

(** The warm start as the specification words it: every stage from its own
    abscissa, [Z_i[j] = CONT[j] + x_i * (CONT[N+j] + x_i * CONT[2N+j])]. *)
Definition spec_Interpolate (NN : nat) (H Hold : float) (CONT : vec) (i : nat) : vec :=
  let x := 1.0 + rkC i * (H / Hold) in
  tabulate NN (fun j => CONT.[j] + x * (CONT.[NN + j] + x * CONT.[NN + NN + j])).

(** [SolverOptions] of generic/opencl/solver.hpp, lines 90-166, with the
    defaults of its constructor.  The three sizes are [std::size_t]
    members; the constructor's [int numBlocks = -1] is stored converted,
    as [2^64 - 1]. *)
Record SolverOptions : Type := {
  _vectorSize : Z; _blockSize : Z; _numBlocks : Z;
  _atol : float; _rtol : float; _logging : bool; _h_init : float;
  _order : Ascii.ascii
}.
Definition h_init (o : SolverOptions) : float := _h_init o.
Definition default_SolverOptions : SolverOptions := {|
  _vectorSize := 1; _blockSize := 1; _numBlocks := 2 ^ 64 - 1;
  _atol := 1e-10; _rtol := 1e-6; _logging := false; _h_init := 1e-6;
  _order := "C"%char
|}.

(** ** Control outcomes *)

(** A callee that may call [exit]. *)
Inductive res (X : Type) : Type :=
| Ok (x : X)
| Exit (code : Z).
Arguments Ok {X} x.
Arguments Exit {X} code.

(** The variables of [integrate] that live across passes of its [while]
    loop.  [Hmin] is the constant 0; [Hnew] and [DZ1..DZ3] are written in
    every pass before they are read, so they stay local. *)
Module S.
Record state : Type := mk {
  Hold : float; Hacc : float; ErrOld : float; H : float; t : float;
  Reject : bool; FirstStep : bool; SkipJac : bool; SkipLU : bool;
  sc : vec; A : vec; E1 : vec; E2 : cvec; ipiv1 : list Z; ipiv2 : list Z;
  Z1 : vec; Z2 : vec; Z3 : vec; CONT : vec;
  y : vec; y0 : vec; F0 : vec;
  info : Z; Nconsecutive : Z; Nsteps : Z; NewtonRate : float
}.
End S.

(** The variables of one Newton loop (lines 511-566). *)
Module N.
Record state : Type := mk {
  Z1 : vec; Z2 : vec; Z3 : vec;
  NewtonDone : bool; NewtonIncrementOld : float; Fac : float;
  NewtonIter : Z; Theta : float; NewtonRate : float
}.
Definition set_Theta (ns : state) (v : float) : state :=
  mk (Z1 ns) (Z2 ns) (Z3 ns) (NewtonDone ns) (NewtonIncrementOld ns) (Fac ns)
     (NewtonIter ns) v (NewtonRate ns).
Definition set_NewtonRate (ns : state) (v : float) : state :=
  mk (Z1 ns) (Z2 ns) (Z3 ns) (NewtonDone ns) (NewtonIncrementOld ns) (Fac ns)
     (NewtonIter ns) (Theta ns) v.
Definition set_Fac (ns : state) (v : float) : state :=
  mk (Z1 ns) (Z2 ns) (Z3 ns) (NewtonDone ns) (NewtonIncrementOld ns) v
     (NewtonIter ns) (Theta ns) (NewtonRate ns).
Definition set_NewtonIter (ns : state) (v : Z) : state :=
  mk (Z1 ns) (Z2 ns) (Z3 ns) (NewtonDone ns) (NewtonIncrementOld ns) (Fac ns)
     v (Theta ns) (NewtonRate ns).
End N.

(** How one pass of the Newton [for] body ends. *)
Inductive newton_exit : Type :=
| NNext (ns : N.state)      (* falls through to [NewtonIter++] *)
| NBreak (ns : N.state)     (* [break] *)
| NReturn                   (* [y[0] = logf(-1); return;], lines 561-565 *)
| NExit (code : Z).         (* [exit] inside [RK_Solve] *)

(** How the Newton loop ends. *)
Inductive newton_result : Type :=
| NLeft (ns : N.state)      (* control reaches line 567 *)
| NReturned
| NExited (code : Z).

(** The two [return] statements inside the loop of [integrate] (a [void]
    function: the labels name the source line, the caller receives none). *)
Inductive early : Type :=
| LU_failed            (* line 481 *)
| Newton_unconverged.  (* line 564 *)

(** How one pass of the [while] body ends. *)
Inductive step : Type :=
| Accepted (st : S.state)               (* the [Err < 1.0] branch, lines 653-692 *)
| Rejected (st : S.state)               (* a [continue], or the [else] branch *)
| Returned (why : early) (y : vec)      (* [return] with the caller's array *)
| Exited (code : Z).                    (* [exit(code)]: the process ends *)

(** How a call of [integrate] ends. *)
Inductive outcome : Type :=
| Finished (y : vec)                    (* the loop condition failed, line 704 *)
| ReturnedEarly (why : early) (y : vec)
| ProcessExit (code : Z)
| OutOfFuel.

(** What [radau2a.c] obtains from outside. *)
Record env : Type := {
  (** from the generated header: the dimension and the tolerances *)
  NN : nat;
  ATOL : float;
  RTOL : float;
  (** the problem hooks [dydt(t, pr, y, dy)] and [eval_jacob(t, pr, y, A)] *)
  dydt : float -> float -> vec -> vec;
  eval_jacob : float -> float -> vec -> vec;
  (** LAPACK on an n x n column-major matrix: the factored matrix, the
      pivots and [info]; the solution of one right-hand side and [info] *)
  dgetrf_ : nat -> vec -> vec * list Z * Z;
  zgetrf_ : nat -> cvec -> cvec * list Z * Z;
  dgetrs_ : nat -> vec -> list Z -> vec -> vec * Z;
  zgetrs_ : nat -> cvec -> list Z -> cvec -> cvec * Z;
  (** libm *)
  pow : float -> float -> float;
  (** the word behind [sums] in the frame of [RK_ErrorNorm] *)
  past_sums : float
}.

Section Radau.

Variable e : env.
Local Abbreviation NN := (NN e).
Local Abbreviation ATOL := (ATOL e).
Local Abbreviation RTOL := (RTOL e).
Local Abbreviation dydt := (dydt e).
Local Abbreviation eval_jacob := (eval_jacob e).
Local Abbreviation dgetrf_ := (dgetrf_ e).
Local Abbreviation zgetrf_ := (zgetrf_ e).
Local Abbreviation dgetrs_ := (dgetrs_ e).
Local Abbreviation zgetrs_ := (zgetrs_ e).
Local Abbreviation pow := (pow e).
Local Abbreviation past_sums := (past_sums e).

Definition scale (y0 y : vec) : vec :=
  tabulate NN (fun i => 1.0 / (ATOL + fmax (fabs y0.[i]) (fabs y.[i]) * RTOL)).

Definition scale_init (y0 : vec) : vec :=
  tabulate NN (fun i => 1.0 / (ATOL + fabs y0.[i] * RTOL)).

(** [RK_Decomp], lines 200-220.  Entry [i + j * NN] is entry [k] with
    [i = k mod NN] and [j = k / NN].  When [dgetrf_] fails, [E2] is left
    filled but not factored and [ipiv2] is not written. *)
Definition RK_Decomp (H : float) (Jac : vec) (ipiv2 : list Z)
  : vec * cvec * list Z * list Z * Z :=
  let temp2 : complex := (rkAlpha / H, rkBeta / H) in
  let temp1 := rkGamma / H in
  let diag (k : nat) := (k mod NN =? k / NN)%nat in
  let E1 := tabulate (NN * NN) (fun k =>
              if diag k then - Jac.[k] + temp1 else - Jac.[k]) in
  let E2 := tabulate (NN * NN) (fun k =>
              if diag k then cadd (- Jac.[k], 0) temp2 else (- Jac.[k], 0)) in
  let '(E1, ipiv1, info) := dgetrf_ NN E1 in
  if negb (info =? 0)%Z then (E1, E2, ipiv1, ipiv2, info)
  else let '(E2, ipiv2, info) := zgetrf_ NN E2 in (E1, E2, ipiv1, ipiv2, info).

Definition RK_Make_Interpolate (Z1 Z2 Z3 : vec) : vec :=
  let den := (rkC 2 - rkC 1) * (rkC 1 - rkC 0) * (rkC 0 - rkC 2) in
  tabulate NN (fun i =>
    ((- rkC 2 * rkC 2 * rkC 1 * Z1.[i] + Z3.[i] * rkC 1 * rkC 0 * rkC 0
      + rkC 1 * rkC 1 * rkC 2 * Z1.[i] - rkC 1 * rkC 1 * rkC 0 * Z3.[i]
      + rkC 2 * rkC 2 * rkC 0 * Z2.[i] - Z2.[i] * rkC 2 * rkC 0 * rkC 0)
     / den) - Z3.[i])
  ++ tabulate NN (fun i =>
    - (rkC 0 * rkC 0 * (Z3.[i] - Z2.[i]) + rkC 1 * rkC 1 * (Z1.[i] - Z3.[i])
       + rkC 2 * rkC 2 * (Z2.[i] - Z1.[i])) / den)
  ++ tabulate NN (fun i =>
    (rkC 0 * (Z3.[i] - Z2.[i]) + rkC 1 * (Z1.[i] - Z3.[i])
     + rkC 2 * (Z2.[i] - Z1.[i])) / den).

(** [RK_Interpolate], lines 237-248, as written: the third line multiplies
    by [x2] outside the bracket and by [x3] inside. *)
Definition RK_Interpolate (H Hold : float) (CONT : vec) : vec * vec * vec :=
  let r := H / Hold in
  let x1 := 1.0 + rkC 0 * r in
  let x2 := 1.0 + rkC 1 * r in
  let x3 := 1.0 + rkC 2 * r in
  (tabulate NN (fun i => CONT.[i] + x1 * (CONT.[NN + i] + x1 * CONT.[NN + NN + i])),
   tabulate NN (fun i => CONT.[i] + x2 * (CONT.[NN + i] + x2 * CONT.[NN + NN + i])),
   tabulate NN (fun i => CONT.[i] + x2 * (CONT.[NN + i] + x3 * CONT.[NN + NN + i]))).

Definition WADD (X Y : vec) : vec := tabulate NN (fun i => X.[i] + Y.[i]).

Definition DAXPY3 (DA1 DA2 DA3 : float) (DX DY1 DY2 DY3 : vec) : vec * vec * vec :=
  (tabulate NN (fun i => DY1.[i] + DA1 * DX.[i]),
   tabulate NN (fun i => DY2.[i] + DA2 * DX.[i]),
   tabulate NN (fun i => DY3.[i] + DA3 * DX.[i])).

(** [RK_PrepareRHS], lines 272-299: R = Z - hA * F. *)
Definition RK_PrepareRHS (t pr H : float) (Y F0 Z1 Z2 Z3 : vec) : vec * vec * vec :=
  let R1 := tabulate NN (fun i => Z1.[i]) in
  let R2 := tabulate NN (fun i => Z2.[i]) in
  let R3 := tabulate NN (fun i => Z3.[i]) in
  let TMP := WADD Y Z1 in
  let F := dydt (t + rkC 0 * H) pr TMP in
  let '(R1, R2, R3) := DAXPY3 (- H * rkA 0 0) (- H * rkA 1 0) (- H * rkA 2 0) F R1 R2 R3 in
  let TMP := WADD Y Z2 in
  let F := dydt (t + rkC 1 * H) pr TMP in
  let '(R1, R2, R3) := DAXPY3 (- H * rkA 0 1) (- H * rkA 1 1) (- H * rkA 2 1) F R1 R2 R3 in
  let TMP := WADD Y Z3 in
  let F := dydt (t + rkC 2 * H) pr TMP in
  DAXPY3 (- H * rkA 0 2) (- H * rkA 1 2) (- H * rkA 2 2) F R1 R2 R3.

(** [RK_Solve], lines 301-347. *)
Definition RK_Solve (H : float) (E1 : vec) (E2 : cvec) (R1 R2 R3 : vec)
    (ipiv1 ipiv2 : list Z) : res (vec * vec * vec) :=
  let x1 i := R1.[i] / H in
  let x2 i := R2.[i] / H in
  let x3 i := R3.[i] / H in
  let S1 := tabulate NN (fun i =>
    rkTinvAinv 0 0 * x1 i + rkTinvAinv 0 1 * x2 i + rkTinvAinv 0 2 * x3 i) in
  let S2 := tabulate NN (fun i =>
    rkTinvAinv 1 0 * x1 i + rkTinvAinv 1 1 * x2 i + rkTinvAinv 1 2 * x3 i) in
  let S3 := tabulate NN (fun i =>
    rkTinvAinv 2 0 * x1 i + rkTinvAinv 2 1 * x2 i + rkTinvAinv 2 2 * x3 i) in
  let '(S1, info) := dgetrs_ NN E1 ipiv1 S1 in
  if negb (info =? 0)%Z then Exit (-1)
  else
    let temp : cvec := tabulate NN (fun i => (S2.[i], S3.[i])) in
    let '(temp, info) := zgetrs_ NN E2 ipiv2 temp in
    if negb (info =? 0)%Z then Exit (-1)
    else
      let S2 := tabulate NN (fun i => creal (nth i temp (0, 0))) in
      let S3 := tabulate NN (fun i => cimag (nth i temp (0, 0))) in
      Ok (tabulate NN (fun i => rkT 0 0 * S1.[i] + rkT 0 1 * S2.[i] + rkT 0 2 * S3.[i]),
          tabulate NN (fun i => rkT 1 0 * S1.[i] + rkT 1 1 * S2.[i] + rkT 1 2 * S3.[i]),
          tabulate NN (fun i => rkT 2 0 * S1.[i] + rkT 2 1 * S2.[i] + rkT 2 2 * S3.[i])).

(** [RK_ErrorNorm] as the integrator runs it. *)
Definition RK_ErrorNorm (scale DY : vec) : float :=
  RK_ErrorNorm_in (flat past_sums) NN scale DY.

(** [RK_ErrorEstimate], lines 377-418. *)
Definition RK_ErrorEstimate (H t pr : float) (Y F0 Z1 Z2 Z3 scale E1 : vec)
    (ipiv1 : list Z) (FirstStep Reject : bool) : res float :=
  let HrkE1 := rkE 1 / H in
  let HrkE2 := rkE 2 / H in
  let HrkE3 := rkE 3 / H in
  let F2 := tabulate NN (fun i => HrkE1 * Z1.[i] + HrkE2 * Z2.[i] + HrkE3 * Z3.[i]) in
  let TMP := tabulate NN (fun i => rkE 0 * F0.[i] + F2.[i]) in
  let '(TMP, info) := dgetrs_ NN E1 ipiv1 TMP in
  if negb (info =? 0)%Z then Exit (-1)
  else
    let Err := RK_ErrorNorm scale TMP in
    if geb Err 1.0 && (FirstStep || Reject) then
      let TMP := tabulate NN (fun i => TMP.[i] + Y.[i]) in
      let F1 := dydt t pr TMP in
      let TMP := tabulate NN (fun i => F1.[i] + F2.[i]) in
      let '(TMP, info) := dgetrs_ NN E1 ipiv1 TMP in
      if negb (info =? 0)%Z then Exit (-1)
      else Ok (RK_ErrorNorm scale TMP)
    else Ok Err.

(** *** The Newton loop, lines 511-566

    The loop runs on the variables of [integrate] as they stand after the
    factorisation ([st]) and on its own variables ([ns]). *)

(** Lines 521-526: the increment of this pass and its norm. *)
Definition newton_increment (pr : float) (st : S.state) (ns : N.state)
  : res (float * vec * vec * vec) :=
  let '(DZ1, DZ2, DZ3) :=
    RK_PrepareRHS (S.t st) pr (S.H st) (S.y st) (S.F0 st) (N.Z1 ns) (N.Z2 ns) (N.Z3 ns) in
  match RK_Solve (S.H st) (S.E1 st) (S.E2 st) DZ1 DZ2 DZ3 (S.ipiv1 st) (S.ipiv2 st) with
  | Exit c => Exit c
  | Ok (DZ1, DZ2, DZ3) =>
    let d1 := RK_ErrorNorm (S.sc st) DZ1 in
    let d2 := RK_ErrorNorm (S.sc st) DZ2 in
    let d3 := RK_ErrorNorm (S.sc st) DZ3 in
    Ok (sqrt ((d1 * d1 + d2 * d2 + d3 * d3) / 3.0), DZ1, DZ2, DZ3)
  end.

(** Lines 549-565: the update, the convergence test, the give-up test. *)
Definition newton_update (ns : N.state) (NewtonIncrement : float) (DZ1 DZ2 DZ3 : vec)
  : newton_exit :=
  let NewtonIncrementOld := fmax NewtonIncrement Roundoff in
  let Z1 := tabulate NN (fun i => (N.Z1 ns).[i] - DZ1.[i]) in
  let Z2 := tabulate NN (fun i => (N.Z2 ns).[i] - DZ2.[i]) in
  let Z3 := tabulate NN (fun i => (N.Z3 ns).[i] - DZ3.[i]) in
  let NewtonDone := N.NewtonRate ns * NewtonIncrement <=? NewtonTol in
  let ns' := N.mk Z1 Z2 Z3 NewtonDone NewtonIncrementOld (N.Fac ns)
                  (N.NewtonIter ns) (N.Theta ns) (N.NewtonRate ns) in
  if NewtonDone then NBreak ns'
  else if (N.NewtonIter ns =? Z.of_nat NewtonMaxit - 1)%Z then NReturn
  else NNext ns'.

(** One pass of the body. *)
Definition newton_body (pr : float) (st : S.state) (ns : N.state) : newton_exit :=
  match newton_increment pr st ns with
  | Exit c => NExit c
  | Ok (NewtonIncrement, DZ1, DZ2, DZ3) =>
    let NewtonIter := N.NewtonIter ns in
    if (0 <? NewtonIter)%Z then
      let Theta := NewtonIncrement / N.NewtonIncrementOld ns in
      if Theta <? 0.99 then
        let ns := N.set_NewtonRate (N.set_Theta ns Theta) (Theta / (1.0 - Theta)) in
        if (NewtonIter <? Z.of_nat NewtonMaxit)%Z then
          let NewtonPredictedErr :=
            (NewtonIncrement * pow Theta (of_int (Z.of_nat NewtonMaxit - NewtonIter - 1)))
            / (1.0 - Theta) in
          if geb NewtonPredictedErr NewtonTol then
            let Qnewton := fmin 10.0 (NewtonPredictedErr / NewtonTol) in
            NBreak (N.set_Fac ns
                      (0.8 * pow Qnewton (-1.0 / of_int (Z.of_nat NewtonMaxit - NewtonIter))))
          else newton_update ns NewtonIncrement DZ1 DZ2 DZ3
        else newton_update ns NewtonIncrement DZ1 DZ2 DZ3
      else NBreak (N.set_Theta ns Theta)
    else newton_update (N.set_Theta ns ThetaMin) NewtonIncrement DZ1 DZ2 DZ3
  end.

(** [for (; NewtonIter < NewtonMaxit; NewtonIter++)], with [n] the passes
    that remain: [n = NewtonMaxit - NewtonIter]. *)
Fixpoint newton_for (pr : float) (st : S.state) (n : nat) (ns : N.state) : newton_result :=
  match n with
  | O => NLeft ns
  | S n' =>
    match newton_body pr st ns with
    | NNext ns' => newton_for pr st n' (N.set_NewtonIter ns' (N.NewtonIter ns' + 1))
    | NBreak ns' => NLeft ns'
    | NReturn => NReturned
    | NExit c => NExited c
    end
  end.

(** Lines 504-518: the starting values and the loop variables at entry. *)
Definition newton_start (st : S.state) : N.state :=
  let '(Z1, Z2, Z3) :=
    if S.FirstStep st || negb StartNewton then (zeros NN, zeros NN, zeros NN)
    else RK_Interpolate (S.H st) (S.Hold st) (S.CONT st) in
  N.mk Z1 Z2 Z3 false 0 0.5 0 0 (pow (fmax (S.NewtonRate st) EPS) 0.8).

Definition newton_run (pr : float) (st : S.state) : newton_result :=
  newton_for pr st NewtonMaxit (newton_start st).

(** *** One pass of the [while] body *)

(** Lines 466-493: [F0], the Jacobian and the factorisation.  [inl] goes on
    to line 494, [inr] leaves the pass. *)
Definition lu_stage (pr : float) (st : S.state) : S.state + step :=
  let F0 := if negb (S.Reject st) then dydt (S.t st) pr (S.y st) else S.F0 st in
  if negb (S.SkipLU st) then
    let A := if negb (S.SkipJac st) then eval_jacob (S.t st) pr (S.y st) else S.A st in
    let '(E1, E2, ipiv1, ipiv2, info) := RK_Decomp (S.H st) A (S.ipiv2 st) in
    if negb (info =? 0)%Z then
      let Nconsecutive := (S.Nconsecutive st + 1)%Z in
      if (Nconsecutive >=? 5)%Z then inr (Returned LU_failed (upd (S.y st) 0 logf_neg1))
      else inr (Rejected
        (S.mk (S.Hold st) (S.Hacc st) (S.ErrOld st) (S.H st * 0.5) (S.t st)
              true (S.FirstStep st) true false
              (S.sc st) A E1 E2 ipiv1 ipiv2
              (S.Z1 st) (S.Z2 st) (S.Z3 st) (S.CONT st)
              (S.y st) (S.y0 st) F0
              info Nconsecutive (S.Nsteps st) (S.NewtonRate st)))
    else
      inl (S.mk (S.Hold st) (S.Hacc st) (S.ErrOld st) (S.H st) (S.t st)
                (S.Reject st) (S.FirstStep st) (S.SkipJac st) (S.SkipLU st)
                (S.sc st) A E1 E2 ipiv1 ipiv2
                (S.Z1 st) (S.Z2 st) (S.Z3 st) (S.CONT st)
                (S.y st) (S.y0 st) F0
                info 0%Z (S.Nsteps st) (S.NewtonRate st))
  else
    inl (S.mk (S.Hold st) (S.Hacc st) (S.ErrOld st) (S.H st) (S.t st)
              (S.Reject st) (S.FirstStep st) (S.SkipJac st) (S.SkipLU st)
              (S.sc st) (S.A st) (S.E1 st) (S.E2 st) (S.ipiv1 st) (S.ipiv2 st)
              (S.Z1 st) (S.Z2 st) (S.Z3 st) (S.CONT st)
              (S.y st) (S.y0 st) F0
              (S.info st) (S.Nconsecutive st) (S.Nsteps st) (S.NewtonRate st)).

(** Lines 567-573: the Newton loop was left without [NewtonDone]. *)
Definition newton_reject (st : S.state) (Nsteps : Z) (ns : N.state) : S.state :=
  S.mk (S.Hold st) (S.Hacc st) (S.ErrOld st) (N.Fac ns * S.H st) (S.t st)
       true (S.FirstStep st) true false
       (S.sc st) (S.A st) (S.E1 st) (S.E2 st) (S.ipiv1 st) (S.ipiv2 st)
       (N.Z1 ns) (N.Z2 ns) (N.Z3 ns) (S.CONT st)
       (S.y st) (S.y0 st) (S.F0 st)
       (S.info st) (S.Nconsecutive st) Nsteps (N.NewtonRate ns).

(** Lines 682-689: the next [H] and [SkipLU] after an accepted step. *)
Definition reuse_decision (t_end t H Hnew Theta : float) (SkipLU : bool) : float * bool :=
  if geb (t + Hnew / Qmin - t_end) 0.0 then (t_end - t, SkipLU)
  else
    let Hratio := Hnew / H in
    let SkipLU := (Theta <=? ThetaMin) && geb Hratio Qmin && (Hratio <=? Qmax) in
    (if negb SkipLU then Hnew else H, SkipLU).

(** Lines 650-702: the new step size, then accept or reject. *)
Definition accept_or_reject (t_end : float) (st : S.state) (Nsteps : Z) (ns : N.state)
    (Err : float) : step :=
  let H := S.H st in
  let Fac := pow Err (-1.0 / rkELO) * (1.0 + of_int (2 * Z.of_nat NewtonMaxit))
             / of_int (N.NewtonIter ns + 1 + 2 * Z.of_nat NewtonMaxit) in
  let Fac := fmin FacMax (fmax FacMin Fac) in
  let Hnew := Fac * H in
  if Err <? 1.0 then
    let Hnew :=
      if negb (S.FirstStep st) then
        let FacGus := FacSafe * (H / S.Hacc st) * pow (Err * Err / S.ErrOld st) (-0.25) in
        let FacGus := fmin FacMax (fmax FacMin FacGus) in
        let Fac := fmin Fac FacGus in
        Fac * H
      else Hnew in
    let t := S.t st + H in
    let y := tabulate NN (fun i => (S.y st).[i] + (N.Z3 ns).[i]) in
    let CONT :=
      if StartNewton then RK_Make_Interpolate (N.Z1 ns) (N.Z2 ns) (N.Z3 ns)
      else S.CONT st in
    let sc := scale y (S.y0 st) in
    let Hnew := fmin (fmax Hnew 0) (t_end - t) in
    let Hnew := if S.Reject st then fmin Hnew H else Hnew in
    let '(H', SkipLU) := reuse_decision t_end t H Hnew (N.Theta ns) (S.SkipLU st) in
    let SkipJac := (N.NewtonIter ns =? 1)%Z || (N.NewtonRate ns <=? ThetaMin) in
    Accepted
      (S.mk H H (fmax 1e-2 Err) H' t
            false false SkipJac SkipLU
            sc (S.A st) (S.E1 st) (S.E2 st) (S.ipiv1 st) (S.ipiv2 st)
            (N.Z1 ns) (N.Z2 ns) (N.Z3 ns) CONT
            y y (S.F0 st)
            (S.info st) (S.Nconsecutive st) Nsteps (N.NewtonRate ns))
  else
    let H' := if S.FirstStep st || S.Reject st then FacRej * H else Hnew in
    Rejected
      (S.mk (S.Hold st) (S.Hacc st) (S.ErrOld st) H' (S.t st)
            true (S.FirstStep st) true false
            (S.sc st) (S.A st) (S.E1 st) (S.E2 st) (S.ipiv1 st) (S.ipiv2 st)
            (N.Z1 ns) (N.Z2 ns) (N.Z3 ns) (S.CONT st)
            (S.y st) (S.y0 st) (S.F0 st)
            (S.info st) (S.Nconsecutive st) Nsteps (N.NewtonRate ns)).

(** Lines 494-702, on the state the factorisation left. *)
Definition step_body (t_end pr : float) (st : S.state) : step :=
  let Nsteps := (S.Nsteps st + 1)%Z in
  if (Nsteps >=? Max_no_steps)%Z then Exited (-1)
  else if 0.1 * fabs (S.H st) <=? fabs (S.t st) * Roundoff then Exited (-1)
  else
    match newton_run pr st with
    | NExited c => Exited c
    | NReturned => Returned Newton_unconverged (upd (S.y st) 0 logf_neg1)
    | NLeft ns =>
      if negb (N.NewtonDone ns) then Rejected (newton_reject st Nsteps ns)
      else
        match RK_ErrorEstimate (S.H st) (S.t st) pr (S.y st) (S.F0 st)
                (N.Z1 ns) (N.Z2 ns) (N.Z3 ns) (S.sc st) (S.E1 st) (S.ipiv1 st)
                (S.FirstStep st) (S.Reject st) with
        | Exit c => Exited c
        | Ok Err => accept_or_reject t_end st Nsteps ns Err
        end
    end.

Definition iteration (t_end pr : float) (st : S.state) : step :=
  match lu_stage pr st with
  | inl st1 => step_body t_end pr st1
  | inr s => s
  end.

(** *** [integrate], lines 424-704 *)

(** The declarations before the loop.  Arrays the source leaves
    uninitialised are written before they are read; they start as zeros. *)
Definition init (t_start : float) (y : vec) : S.state :=
  S.mk 0 0 0 5e-7 t_start
       false true false false
       (scale_init y) (zeros (NN * NN)) (zeros (NN * NN)) (repeat (0, 0) (NN * NN))
       (repeat 0%Z NN) (repeat 0%Z NN)
       (zeros NN) (zeros NN) (zeros NN) (zeros (NN * 3))
       y y (zeros NN)
       0%Z 0%Z 0%Z (pow 2.0 1.25).

(** [while (t + Roundoff < t_end)]; [fuel] bounds the passes. *)
Fixpoint integrate_loop (fuel : nat) (t_end pr : float) (st : S.state) : outcome :=
  if S.t st + Roundoff <? t_end then
    match fuel with
    | O => OutOfFuel
    | S fuel' =>
      match iteration t_end pr st with
      | Accepted st' => integrate_loop fuel' t_end pr st'
      | Rejected st' => integrate_loop fuel' t_end pr st'
      | Returned why y => ReturnedEarly why y
      | Exited c => ProcessExit c
      end
    end
  else Finished (S.y st).

Definition integrate (fuel : nat) (t_start t_end pr : float) (y : vec) : outcome :=
  integrate_loop fuel t_end pr (init t_start y).

(** *** Runs of the loop, for stating invariants *)

(** The loop variables after [n] more passes, when the loop makes them. *)
Fixpoint after (n : nat) (t_end pr : float) (st : S.state) : option S.state :=
  match n with
  | O => Some st
  | S n' =>
    if S.t st + Roundoff <? t_end then
      match iteration t_end pr st with
      | Accepted st' | Rejected st' => after n' t_end pr st'
      | _ => None
      end
    else None
  end.

(** The states [integrate] passes through at the head of its loop. *)
Definition reachable (t_start t_end pr : float) (y : vec) (st : S.state) : Prop :=
  exists n, after n t_end pr (init t_start y) = Some st.

(** The array [y] as the last accepted pass of a run left it; [acc] when
    the run accepts none. *)
Fixpoint last_accepted (fuel : nat) (t_end pr : float) (st : S.state) (acc : vec) : vec :=
  if S.t st + Roundoff <? t_end then
    match fuel with
    | O => acc
    | S fuel' =>
      match iteration t_end pr st with
      | Accepted st' => last_accepted fuel' t_end pr st' (S.y st')
      | Rejected st' => last_accepted fuel' t_end pr st' acc
      | _ => acc
      end
    end
  else acc.

(** The Newton variables at the head of pass [k], when the loop gets there. *)
Fixpoint newton_at (pr : float) (st : S.state) (k : nat) (ns : N.state) : option N.state :=
  match k with
  | O => Some ns
  | S k' =>
    match newton_body pr st ns with
    | NNext ns' => newton_at pr st k' (N.set_NewtonIter ns' (N.NewtonIter ns' + 1))
    | _ => None
    end
  end.

End Radau.

(** The passes that can still follow: every pass either counts a failed
    factorisation (fewer than 5 in a row) or a step (fewer than
    [Max_no_steps]). *)
Definition passes_left (st : S.state) : Z :=
  5 * (Max_no_steps - S.Nsteps st) - S.Nconsecutive st.

Definition counters_ok (st : S.state) : Prop :=
  (0 <= S.Nconsecutive st <= 4)%Z /\ (0 <= S.Nsteps st < Max_no_steps)%Z.

(** The real factor of a [RK_Decomp] result. *)
Definition E1_of (r : vec * cvec * list Z * list Z * Z) : vec :=
  let '(E1, _, _, _, _) := r in E1.

(** ** A concrete environment for runs

    The runs below need the outside world to be concrete: libm's [pow],
    LAPACK on a 1 x 1 system, and scalar problems [y' = lambda * y]. *)

Module Libm.

(** A NaN-free, positive, finite double as an integer times a power of 2. *)
Definition to_Z (x : float) : Z :=
  match Prim2SF x with
  | S754_finite s m e =>
    let v := if (0 <=? e)%Z then Z.shiftl (Zpos m) e else Z.shiftr (Zpos m) (- e) in
    if s then (- v)%Z else v
  | _ => 0%Z
  end.

(** [x + x^3/3 + x^5/5 + ...], the terms from [k] on, [n] of them. *)
Fixpoint atanh_series (n : nat) (k : Z) (p z2 : float) : float :=
  match n with
  | O => 0
  | S n' => p / of_int k + atanh_series n' (k + 2) (p * z2) z2
  end.

Definition ln2 : float := 0x1.62e42fefa39efp-1.

Definition ln (x : float) : float :=
  let (m, e) := Z.frexp x in
  let '(m, e) := if m <? 0x1.6a09e667f3bcdp-1 then (m * 2, (e - 1)%Z) else (m, e) in
  let z := (m - 1) / (m + 1) in
  of_int (Z.abs e) * (if (e <? 0)%Z then - ln2 else ln2) + 2 * atanh_series 14 1 z (z * z).

(** [1 + r + r^2/2! + ...], Horner from the last term. *)
Fixpoint exp_series (n : nat) (k : Z) (r : float) : float :=
  match n with
  | O => 1
  | S n' => 1 + r / of_int k * exp_series n' (k + 1) r
  end.

Definition exp (u : float) : float :=
  let kf := (u / ln2 + 0x1.8p52) - 0x1.8p52 in
  let r := u - kf * ln2 in
  Z.ldexp (exp_series 20 1 r) (to_Z kf).

Definition pow (x y : float) : float :=
  if y =? 0 then 1
  else if is_nan x || is_nan y then nan
  else if x =? 0 then (if y <? 0 then infinity else 0)
  else if x <? 0 then nan
  else exp (y * ln x).

End Libm.

Module Lapack1.

Definition dgetrf_ (n : nat) (A : vec) : vec * list Z * Z :=
  (A, [1%Z], if A.[0] =? 0 then 1%Z else 0%Z).

Definition dgetrs_ (n : nat) (LU : vec) (ipiv : list Z) (B : vec) : vec * Z :=
  ([B.[0] / LU.[0]], 0%Z).

Definition cdiv (b a : complex) : complex :=
  let d := fst a * fst a + snd a * snd a in
  ((fst b * fst a + snd b * snd a) / d, (snd b * fst a - fst b * snd a) / d).

Definition zgetrf_ (n : nat) (A : cvec) : cvec * list Z * Z :=
  let a := nth 0 A (0, 0) in
  (A, [1%Z], if (fst a =? 0) && (snd a =? 0) then 1%Z else 0%Z).

Definition zgetrs_ (n : nat) (LU : cvec) (ipiv : list Z) (B : cvec) : cvec * Z :=
  ([cdiv (nth 0 B (0, 0)) (nth 0 LU (0, 0))], 0%Z).

End Lapack1.

(** The scalar problem [y' = lambda * y] with the Jacobian hook returning [jac]. *)
Module Scalar.

Definition rhs (lambda : float) (t pr : float) (y : vec) : vec := [lambda * y.[0]].
Definition jacobian (jac : float) (t pr : float) (y : vec) : vec := [jac].

Definition atol : float := 1e-10.
Definition rtol : float := 1e-6.

(** The rate at which [E1 = gamma / h - lambda] vanishes for the first
    step size [h = 5e-7]. *)
Definition pole : float := rkGamma / 5e-7.

(** [w] is the word behind [sums]. *)
Definition env (lambda jac w : float) : env := {|
  NN := 1; ATOL := atol; RTOL := rtol;
  dydt := rhs lambda; eval_jacob := jacobian jac;
  dgetrf_ := Lapack1.dgetrf_; zgetrf_ := Lapack1.zgetrf_;
  dgetrs_ := Lapack1.dgetrs_; zgetrs_ := Lapack1.zgetrs_;
  pow := Libm.pow; past_sums := w
|}.

End Scalar.


(** LAPACK on a 2 x 2 real system, column-major [a11; a21; a12; a22]:
    partial pivoting, [info] the column of the first zero pivot. *)
Module Lapack2.

Definition dgetrf_ (n : nat) (A : vec) : vec * list Z * Z :=
  let swap := fabs A.[0] <? fabs A.[1] in
  let '(u11, r21, u12, r22) :=
    if swap then (A.[1], A.[0], A.[3], A.[2]) else (A.[0], A.[1], A.[2], A.[3]) in
  let p := if swap then 2%Z else 1%Z in
  if u11 =? 0 then ([u11; r21; u12; r22 - r21 * u12], [p; 2%Z], 1%Z)
  else
    let l := r21 / u11 in
    let u22 := r22 - l * u12 in
    ([u11; l; u12; u22], [p; 2%Z], if u22 =? 0 then 2%Z else 0%Z).

Definition dgetrs_ (n : nat) (LU : vec) (ipiv : list Z) (B : vec) : vec * Z :=
  let '(b1, b2) := if (nth 0 ipiv 1 =? 2)%Z then (B.[1], B.[0]) else (B.[0], B.[1]) in
  let b2 := b2 - LU.[1] * b1 in
  let x2 := b2 / LU.[3] in
  ([(b1 - LU.[2] * x2) / LU.[0]; x2], 0%Z).

Definition cmul (a b : complex) : complex :=
  (fst a * fst b - snd a * snd b, fst a * snd b + snd a * fst b).
Definition csub (a b : complex) : complex := (fst a - fst b, snd a - snd b).
Definition cabs1 (a : complex) : float := fabs (fst a) + fabs (snd a).
Definition czero (a : complex) : bool := (fst a =? 0) && (snd a =? 0).
Definition cget (a : cvec) (i : nat) : complex := nth i a (0, 0).

Definition zgetrf_ (n : nat) (A : cvec) : cvec * list Z * Z :=
  let swap := cabs1 (cget A 0) <? cabs1 (cget A 1) in
  let '(u11, r21, u12, r22) :=
    if swap then (cget A 1, cget A 0, cget A 3, cget A 2)
    else (cget A 0, cget A 1, cget A 2, cget A 3) in
  let p := if swap then 2%Z else 1%Z in
  if czero u11 then ([u11; r21; u12; csub r22 (cmul r21 u12)], [p; 2%Z], 1%Z)
  else
    let l := Lapack1.cdiv r21 u11 in
    let u22 := csub r22 (cmul l u12) in
    ([u11; l; u12; u22], [p; 2%Z], if czero u22 then 2%Z else 0%Z).

Definition zgetrs_ (n : nat) (LU : cvec) (ipiv : list Z) (B : cvec) : cvec * Z :=
  let '(b1, b2) :=
    if (nth 0 ipiv 1 =? 2)%Z then (cget B 1, cget B 0) else (cget B 0, cget B 1) in
  let b2 := csub b2 (cmul (cget LU 1) b1) in
  let x2 := Lapack1.cdiv b2 (cget LU 3) in
  ([Lapack1.cdiv (csub b1 (cmul (cget LU 2) x2)) (cget LU 0); x2], 0%Z).

End Lapack2.

(** A linear system [y' = J y] in the plane, [J] column-major. *)
Module Planar.

Definition rhs (J : vec) (t pr : float) (y : vec) : vec :=
  [J.[0] * y.[0] + J.[2] * y.[1]; J.[1] * y.[0] + J.[3] * y.[1]].
Definition jacobian (J : vec) (t pr : float) (y : vec) : vec := J.

Definition env (J : vec) (w : float) : env := {|
  NN := 2; ATOL := Scalar.atol; RTOL := Scalar.rtol;
  dydt := rhs J; eval_jacob := jacobian J;
  dgetrf_ := Lapack2.dgetrf_; zgetrf_ := Lapack2.zgetrf_;
  dgetrs_ := Lapack2.dgetrs_; zgetrs_ := Lapack2.zgetrs_;
  pow := Libm.pow; past_sums := w
|}.

End Planar.

(** ** What [RK_ErrorNorm] accumulates *)

(** The term of component [i]: [scale[i] * scale[i] * DY[i] * DY[i]]. *)
Definition norm_sq (scale DY : vec) (i : nat) : float :=
  scale.[i] * scale.[i] * DY.[i] * DY.[i].

(** The components added into [sums[j]], in the order the two loops reach
    them: [j] itself in the remainder loop when [j < NN % UNROLL], then
    [NN % UNROLL + b * UNROLL + j] for every block [b]. *)
Definition slot_indices (NN j : nat) : list nat :=
  (if (j <? NN mod UNROLL)%nat then [j] else [])
  ++ map (fun b => NN mod UNROLL + b * UNROLL + j)%nat (seq 0 (NN / UNROLL)).

Definition slot_sum (NN : nat) (scale DY : vec) (j : nat) : float :=
  fold_left (fun a i => a + norm_sq scale DY i) (slot_indices NN j) 0.

(** The blocks of the unrolled loop, one after the other. *)
Definition blocks_run (w : float) (scale DY : vec) (start : nat) (bl : list nat) (s : vec)
  : vec :=
  for_ (flat w) (map (fun b => start + b * UNROLL)%nat bl)
    (fun i => for_ (flat w) (seq 0 UNROLL)
                (fun j => norm_term (flat w) scale DY (i + j) j)) s.

(** ** The step size proposed by an accepted pass *)

(** Lines 650-660 and 677-680: [Hnew] as it stands at line 682, from the
    loop variables after the factorisation stage, the Newton variables and
    the error estimate. *)
Definition Hnew_accepted (e : env) (t_end : float) (st : S.state) (ns : N.state)
    (Err : float) : float :=
  let H := S.H st in
  let Fac := pow e Err (-1.0 / rkELO) * (1.0 + of_int (2 * Z.of_nat NewtonMaxit))
             / of_int (N.NewtonIter ns + 1 + 2 * Z.of_nat NewtonMaxit) in
  let Fac := fmin FacMax (fmax FacMin Fac) in
  let Hnew := Fac * H in
  let Hnew :=
    if negb (S.FirstStep st) then
      let FacGus := FacSafe * (H / S.Hacc st) * pow e (Err * Err / S.ErrOld st) (-0.25) in
      let FacGus := fmin FacMax (fmax FacMin FacGus) in
      let Fac := fmin Fac FacGus in
      Fac * H
    else Hnew in
  let t := S.t st + H in
  let Hnew := fmin (fmax Hnew 0) (t_end - t) in
  if S.Reject st then fmin Hnew H else Hnew.

(** ** Invariants of the loop of [integrate] *)

(** What holds of the loop variables at the head of every pass of a call
    [integrate(t_start, _, _, y)]. *)
Definition loop_inv (e : env) (t_start : float) (y : vec) (st : S.state) : Prop :=
  (* [y0] is a copy of [y] *)
  S.y0 st = S.y st /\
  (* the counters are in range *)
  counters_ok st /\
  (* after a rejection the Jacobian is kept and the factors are redone *)
  (S.Reject st = true -> S.SkipJac st = true /\ S.SkipLU st = false) /\
  (* factors are only reused after an accepted step *)
  (S.SkipLU st = true -> S.FirstStep st = false) /\
  (* until the first accepted step nothing of the problem has moved *)
  (S.FirstStep st = true ->
   S.t st = t_start /\ S.y st = y /\ S.sc st = scale_init e y) /\
  (* afterwards the controller's memory is usable and the arrays are whole *)
  (S.FirstStep st = false ->
   (1e-2 <=? S.ErrOld st) = true /\ S.Hacc st = S.Hold st /\
   length (S.CONT st) = (3 * NN e)%nat /\
   length (S.y st) = NN e /\ length (S.sc st) = NN e).

(** The stored factors and pivots are what [RK_Decomp] returns, with
    [info = 0], for the current step size and the stored Jacobian. *)
Definition factors_current (e : env) (st : S.state) : Prop :=
  exists p, RK_Decomp e (S.H st) (S.A st) p
            = (S.E1 st, S.E2 st, S.ipiv1 st, S.ipiv2 st, 0%Z).

(** ** generic/opencl/solver.hpp: the integrator's helpers and its log *)

(** [isPower2], lines 305-308.  [x - 1] is only evaluated for [x > 0], where
    an [int] does not wrap. *)
Definition isPower2 (x : Z) : bool := (0 <? x)%Z && (Z.land x (x - 1) =? 0)%Z.

(** A read of [n] doubles from [&src[s]]; reading past the array is
    refused. *)
Definition read_block (src : vec) (s n : nat) : option vec :=
  if (s + n <=? length src)%nat then Some (firstn n (skipn s src)) else None.

(** [memcpy(&dst[d], &src[s], n * sizeof(double))] between two arrays;
    writing past [dst] is refused. *)
Definition memcpy (dst : vec) (d : nat) (src : vec) (s n : nat) : option vec :=
  match read_block src s n with
  | Some blk =>
    if (d + n <=? length dst)%nat then Some (firstn d dst ++ blk ++ skipn (d + n) dst)
    else None
  | None => None
  end.

(** [int] and [std::size_t] arithmetic: 32 bits two's complement, 64 bits
    unsigned. *)
Definition int_wrap (z : Z) : Z := ((z + 2 ^ 31) mod 2 ^ 32 - 2 ^ 31)%Z.
Definition size_wrap (z : Z) : Z := (z mod 2 ^ 64)%Z.

(** The count of doubles in [NUM * _neq * sizeof(double)] bytes: the
    product [NUM * _neq] is taken in [int], then converted to
    [std::size_t] and multiplied by 8. *)
Definition block_doubles (NUM _neq : Z) : nat :=
  Z.to_nat (size_wrap (int_wrap (NUM * _neq) * 8) / 8).

(** [log], lines 733-741: a new entry of [1 + NUM * _neq] doubles (an
    [int]), the time first, appended to [_log].  An entry without a first
    element is refused. *)
Definition log (_neq : Z) (_log : list vec) (NUM : Z) (t : float) (phi : vec)
  : option (list vec) :=
  let len := int_wrap (1 + int_wrap (NUM * _neq)) in
  if (len <=? 0)%Z then None
  else
    let set := repeat 0 (Z.to_nat len) in
    let set := upd set 0 t in
    match memcpy set 1 phi 0 (block_doubles NUM _neq) with
    | Some set => Some (_log ++ [set])
    | None => None
    end.

(** [getLog], lines 744-752, from entry [index] on.  [index * NUM * _neq]
    is taken in [std::size_t], from the left. *)
Fixpoint getLog_from (_neq NUM : Z) (entries : list vec) (index : nat) (times phi : vec)
  : option (vec * vec) :=
  match entries with
  | [] => Some (times, phi)
  | log_entry :: rest =>
    match nth_error log_entry 0 with
    | None => None
    | Some t0 =>
      if (index <? length times)%nat then
        let times := upd times index t0 in
        let at_ :=
          Z.to_nat (size_wrap (size_wrap (Z.of_nat index * size_wrap NUM) * size_wrap _neq)) in
        match memcpy phi at_ log_entry 1 (block_doubles NUM _neq) with
        | Some phi => getLog_from _neq NUM rest (S index) times phi
        | None => None
        end
      else None
    end
  end.

Definition getLog (_neq : Z) (_log : list vec) (NUM : Z) (times phi : vec)
  : option (vec * vec) :=
  getLog_from _neq NUM _log 0 times phi.

(** [numSteps], lines 755-758. *)
Definition numSteps (_log : list vec) : nat := length _log.

(** One call of [log] per record, in order. *)
Fixpoint log_each (_neq NUM : Z) (recs : list (float * vec)) (_log : list vec)
  : option (list vec) :=
  match recs with
  | [] => Some _log
  | (t, phi) :: rest =>
    match log _neq _log NUM t phi with
    | Some l => log_each _neq NUM rest l
    | None => None
    end
  end.

(** * Facts *)

(** ** Arrays *)

Lemma length_tabulate {X : Type} (n : nat) (f : nat -> X) : length (tabulate n f) = n.
Proof. unfold tabulate. now rewrite length_map, length_seq. Qed.

Lemma get_tabulate (n : nat) (f : nat -> float) (i : nat) :
  (i < n)%nat -> (tabulate n f).[i] = f i.
Proof.
  intros Hi. unfold get, tabulate.
  rewrite (nth_indep _ 0 (f 0%nat)) by now rewrite length_map, length_seq.
  rewrite map_nth, seq_nth by exact Hi. reflexivity.
Qed.

Lemma length_upd (a : vec) (i : nat) (v : float) : length (upd a i v) = length a.
Proof.
  revert i. induction a as [|x a IH]; intros [|i]; simpl; auto.
Qed.

Lemma get_upd_same (a : vec) (v : float) : a <> [] -> (upd a 0 v).[0] = v.
Proof. destruct a; [congruence | reflexivity]. Qed.

Lemma get_upd_other (a : vec) (i : nat) (v : float) :
  (0 < i)%nat -> (upd a 0 v).[i] = a.[i].
Proof. destruct a, i; simpl; intros; try lia; reflexivity. Qed.

(** ** Doubles *)

Lemma SFcompare_antisym (a b : spec_float) (c : comparison) :
  SFcompare a b = Some c -> SFcompare b a = Some (CompOpp c).
Proof.
  destruct a as [sa|sa| |sa ma ea], b as [sb|sb| |sb mb eb]; simpl;
    try discriminate;
    try (intros [= <-]; try destruct sa; try destruct sb; reflexivity).
  intros [= <-]. f_equal.
  assert (Hm : Pos.compare_cont Eq mb ma = CompOpp (Pos.compare_cont Eq ma mb))
    by (symmetry; apply (Pos.compare_cont_antisym ma mb Eq)).
  destruct sa, sb; try reflexivity;
    rewrite (Z.compare_antisym ea eb);
    destruct (ea ?= eb)%Z; simpl; try reflexivity;
    rewrite Hm; try rewrite CompOpp_involutive; reflexivity.
Qed.

(** [x >= y] excludes [x < y]. *)
Lemma geb_not_ltb (x y : float) : geb x y = true -> (x <? y) = false.
Proof.
  unfold geb. rewrite FloatAxioms.leb_spec, FloatAxioms.ltb_spec. unfold SFleb, SFltb.
  destruct (SFcompare (Prim2SF y) (Prim2SF x)) as [c|] eqn:E; [|discriminate].
  rewrite (SFcompare_antisym _ _ _ E). destruct c; simpl; congruence.
Qed.

Lemma is_nan_spec (x : float) : is_nan x = true -> Prim2SF x = S754_nan.
Proof.
  unfold is_nan. rewrite FloatAxioms.eqb_spec. unfold SFeqb.
  destruct (Prim2SF x) as [s|s| |s m e]; simpl; try discriminate; auto.
  - destruct s; discriminate.
  - rewrite Z.compare_refl, Pos.compare_cont_refl. destruct s; discriminate.
Qed.

Lemma is_nan_eq (x y : float) : is_nan x = true -> is_nan y = true -> x = y.
Proof.
  intros Hx Hy. apply Prim2SF_inj. now rewrite (is_nan_spec _ Hx), (is_nan_spec _ Hy).
Qed.

Lemma SFcompare_abs_Eq (a b : spec_float) :
  SFcompare (SFabs a) (SFabs b) = Some Eq -> SFabs a = SFabs b.
Proof.
  destruct a as [sa|sa| |sa ma ea], b as [sb|sb| |sb mb eb]; simpl;
    try discriminate; try reflexivity.
  destruct (ea ?= eb)%Z eqn:E; try discriminate.
  intros [= Hm]. apply Z.compare_eq in E. apply Pos.compare_eq in Hm. now subst.
Qed.

(** On magnitudes [fmax] does not depend on the order of its arguments. *)
Lemma fmax_fabs_comm (a b : float) : fmax (fabs a) (fabs b) = fmax (fabs b) (fabs a).
Proof.
  unfold fmax.
  destruct (is_nan (fabs a)) eqn:Na, (is_nan (fabs b)) eqn:Nb; try reflexivity.
  - now apply is_nan_eq.
  - rewrite !FloatAxioms.ltb_spec. unfold SFltb.
    destruct (SFcompare (Prim2SF (fabs a)) (Prim2SF (fabs b))) as [c|] eqn:E.
    + rewrite (SFcompare_antisym _ _ _ E). destruct c; simpl; try reflexivity.
      apply Prim2SF_inj. unfold fabs in *. rewrite !FloatAxioms.abs_spec in *.
      now apply SFcompare_abs_Eq.
    + exfalso. unfold is_nan in Na, Nb. rewrite FloatAxioms.eqb_spec in Na, Nb. unfold SFeqb in Na, Nb.
      destruct (Prim2SF (fabs a)) as [s|s| |s m e], (Prim2SF (fabs b)) as [s'|s'| |s' m' e'];
        simpl in *; try discriminate.
Qed.

(** ** One pass of the loop *)

Section RadauFacts.

Variable e : env.

Ltac split_step :=
  repeat match goal with
  | H : context [match ?x with inl _ => _ | inr _ => _ end] |- _ => destruct x eqn:?
  | H : context [let '(_, _) := ?x in _] |- _ => destruct x eqn:?
  | H : context [if ?c then _ else _] |- _ => destruct c eqn:?
  | H : context [match ?x with NLeft _ => _ | NReturned => _ | NExited _ => _ end] |- _ =>
      destruct x eqn:?
  | H : context [match ?x with Ok _ => _ | Exit _ => _ end] |- _ => destruct x eqn:?
  end.

(** The factorisation stage touches neither the time, the step size, the
    solution nor the flags. *)
Lemma lu_stage_inl (pr : float) (st st1 : S.state) :
  lu_stage e pr st = inl st1 ->
  S.t st1 = S.t st /\ S.H st1 = S.H st /\ S.y st1 = S.y st /\ S.y0 st1 = S.y0 st /\
  S.sc st1 = S.sc st /\ S.Reject st1 = S.Reject st /\ S.FirstStep st1 = S.FirstStep st /\
  S.SkipLU st1 = S.SkipLU st /\ S.Nsteps st1 = S.Nsteps st.
Proof.
  unfold lu_stage. intros H. split_step; inversion H; subst; simpl; repeat split.
Qed.

(** It leaves the pass by the return of line 481 or by the retry of line 487. *)
Lemma lu_stage_inr (pr : float) (st : S.state) (s : step) :
  lu_stage e pr st = inr s ->
  s = Returned LU_failed (upd (S.y st) 0 logf_neg1) \/
  exists st', s = Rejected st' /\ S.y st' = S.y st /\ S.y0 st' = S.y0 st /\
              S.H st' = S.H st * 0.5 /\ S.SkipLU st' = false.
Proof.
  unfold lu_stage. intros H. split_step; inversion H; subst;
    first [left; reflexivity | right; eexists; split; [reflexivity|]; simpl; repeat split].
Qed.

Lemma accept_or_reject_accepted (t_end : float) (st st' : S.state) (Nsteps : Z)
    (ns : N.state) (Err : float) :
  accept_or_reject e t_end st Nsteps ns Err = Accepted st' ->
  (Err <? 1.0) = true /\
  S.t st' = S.t st + S.H st /\
  S.y st' = tabulate (NN e) (fun i => (S.y st).[i] + (N.Z3 ns).[i]) /\
  S.y0 st' = S.y st' /\
  S.sc st' = scale e (S.y st') (S.y0 st) /\
  S.Z3 st' = N.Z3 ns /\ S.Hold st' = S.H st /\
  S.E1 st' = S.E1 st /\ S.E2 st' = S.E2 st /\ S.A st' = S.A st.
Proof.
  unfold accept_or_reject. intros H.
  destruct (Err <? 1.0); [|discriminate].
  match type of H with (let '(_, _) := ?x in _) = _ => destruct x end.
  inversion H; subst; simpl. repeat split.
Qed.

Lemma accept_or_reject_rejected (t_end : float) (st st' : S.state) (Nsteps : Z)
    (ns : N.state) (Err : float) :
  accept_or_reject e t_end st Nsteps ns Err = Rejected st' ->
  S.y st' = S.y st /\ S.y0 st' = S.y0 st /\ S.SkipLU st' = false.
Proof.
  unfold accept_or_reject. intros H.
  destruct (Err <? 1.0).
  - match type of H with (let '(_, _) := ?x in _) = _ => destruct x end. discriminate.
  - inversion H; subst; simpl. repeat split.
Qed.

Lemma accept_or_reject_continues (t_end : float) (st : S.state) (Nsteps : Z)
    (ns : N.state) (Err : float) :
  (exists st', accept_or_reject e t_end st Nsteps ns Err = Accepted st') \/
  (exists st', accept_or_reject e t_end st Nsteps ns Err = Rejected st').
Proof.
  unfold accept_or_reject. destruct (Err <? 1.0).
  - left. match goal with |- context [let '(_, _) := ?x in _] => destruct x end. eauto.
  - right. eauto.
Qed.

(** An accepted pass went through a converged Newton loop and an error
    estimate below 1. *)
Lemma step_body_accepted (t_end pr : float) (st st' : S.state) :
  step_body e t_end pr st = Accepted st' ->
  exists ns Err,
    newton_run e pr st = NLeft ns /\ N.NewtonDone ns = true /\
    RK_ErrorEstimate e (S.H st) (S.t st) pr (S.y st) (S.F0 st)
      (N.Z1 ns) (N.Z2 ns) (N.Z3 ns) (S.sc st) (S.E1 st) (S.ipiv1 st)
      (S.FirstStep st) (S.Reject st) = Ok Err /\
    accept_or_reject e t_end st (S.Nsteps st + 1) ns Err = Accepted st'.
Proof.
  unfold step_body. intros H.
  destruct (_ >=? _)%Z; [discriminate|].
  destruct (_ <=? _); [discriminate|].
  destruct (newton_run e pr st) as [ns| |c]; try discriminate.
  destruct (N.NewtonDone ns) eqn:D; simpl in H; [|discriminate].
  destruct (RK_ErrorEstimate _ _ _ _ _ _ _ _ _ _ _ _ _ _) as [Err|c] eqn:E; [|discriminate].
  exists ns, Err. auto.
Qed.

Lemma step_body_rejected (t_end pr : float) (st st' : S.state) :
  step_body e t_end pr st = Rejected st' ->
  S.y st' = S.y st /\ S.y0 st' = S.y0 st /\ S.SkipLU st' = false.
Proof.
  unfold step_body. intros H.
  destruct (_ >=? _)%Z; [discriminate|].
  destruct (_ <=? _); [discriminate|].
  destruct (newton_run e pr st) as [ns| |c]; try discriminate.
  destruct (N.NewtonDone ns) eqn:D; simpl in H.
  - destruct (RK_ErrorEstimate _ _ _ _ _ _ _ _ _ _ _ _ _ _) as [Err|c] eqn:E; [|discriminate].
    eapply accept_or_reject_rejected; eauto.
  - inversion H; subst; simpl. repeat split.
Qed.

Lemma step_body_returned (t_end pr : float) (st : S.state) (why : early) (y' : vec) :
  step_body e t_end pr st = Returned why y' ->
  why = Newton_unconverged /\ y' = upd (S.y st) 0 logf_neg1.
Proof.
  unfold step_body. intros H.
  destruct (_ >=? _)%Z; [discriminate|].
  destruct (_ <=? _); [discriminate|].
  destruct (newton_run e pr st) as [ns| |c]; try discriminate.
  - destruct (N.NewtonDone ns) eqn:D; simpl in H; [|discriminate].
    destruct (RK_ErrorEstimate _ _ _ _ _ _ _ _ _ _ _ _ _ _) as [Err|c] eqn:E; [|discriminate].
    destruct (accept_or_reject_continues t_end st (S.Nsteps st + 1) ns Err) as [[s Hs]|[s Hs]];
      rewrite Hs in H; discriminate.
  - now inversion H.
Qed.

(** A rejected pass leaves the solution and its copy alone. *)
Lemma iteration_rejected (t_end pr : float) (st st' : S.state) :
  iteration e t_end pr st = Rejected st' ->
  S.y st' = S.y st /\ S.y0 st' = S.y0 st /\ S.SkipLU st' = false.
Proof.
  unfold iteration. intros H.
  destruct (lu_stage e pr st) as [st1|s] eqn:L.
  - destruct (lu_stage_inl _ _ _ L) as (_ & _ & Hy & Hy0 & _).
    rewrite <- Hy, <- Hy0. eapply step_body_rejected; eauto.
  - subst s. destruct (lu_stage_inr _ _ _ L) as [?|(st2 & Hs & ? & ? & ? & ?)];
      [discriminate|]. inversion Hs; subst. auto.
Qed.

(** C1: an accepted pass (the error estimate is below 1) commits
    [t_new = t_old + h_used] and [y_new[i] = y_old[i] + Z3[i]] for every
    component, where [Z3] is the third stage increment the converged Newton
    loop of that pass ended with. *)
Theorem accepted_step_commits (t_end pr : float) (st st' : S.state) :
  iteration e t_end pr st = Accepted st' ->
  exists st1 ns Err,
    lu_stage e pr st = inl st1 /\
    newton_run e pr st1 = NLeft ns /\ N.NewtonDone ns = true /\
    RK_ErrorEstimate e (S.H st1) (S.t st1) pr (S.y st1) (S.F0 st1)
      (N.Z1 ns) (N.Z2 ns) (N.Z3 ns) (S.sc st1) (S.E1 st1) (S.ipiv1 st1)
      (S.FirstStep st1) (S.Reject st1) = Ok Err /\
    (Err <? 1.0) = true /\
    S.t st' = S.t st + S.H st /\
    forall i, (i < NN e)%nat -> (S.y st').[i] = (S.y st).[i] + (N.Z3 ns).[i].
Proof.
  unfold iteration. intros H.
  destruct (lu_stage e pr st) as [st1|s] eqn:L.
  - destruct (lu_stage_inl _ _ _ L) as (Ht & HH & Hy & _).
    destruct (step_body_accepted _ _ _ _ H) as (ns & Err & Hn & Hd & He & Ha).
    destruct (accept_or_reject_accepted _ _ _ _ _ _ Ha) as (Hlt & Ht' & Hy' & _).
    exists st1, ns, Err. repeat split; auto.
    + now rewrite Ht', Ht, HH.
    + intros i Hi. rewrite Hy', get_tabulate, Hy by exact Hi. reflexivity.
  - subst s. destruct (lu_stage_inr _ _ _ L) as [?|(st2 & Hs & _)]; discriminate.
Qed.

End RadauFacts.

(** The first pass on [y' = 0], [y = [1]] is accepted. *)
Lemma accepted_step_commits_witness :
  exists st',
    iteration (Scalar.env 0 0 0) 1e-3 0 (init (Scalar.env 0 0 0) 0 [1]) = Accepted st' /\
    S.t st' = S.t (init (Scalar.env 0 0 0) 0 [1]) + S.H (init (Scalar.env 0 0 0) 0 [1]) /\
    exists ns, N.NewtonDone ns = true /\ (S.y st').[0] = 1 + (N.Z3 ns).[0].
Proof.
  assert (H : {st' | iteration (Scalar.env 0 0 0) 1e-3 0 (init (Scalar.env 0 0 0) 0 [1])
                     = Accepted st'})
    by (eexists; vm_compute; reflexivity).
  destruct H as [st' H]. exists st'. split; [exact H|].
  destruct (accepted_step_commits _ _ _ _ _ H) as (st1 & ns & Err & _ & _ & Hd & _ & _ & Ht & Hy).
  split; [exact Ht|]. exists ns. split; [exact Hd|]. apply (Hy 0%nat). simpl. lia.
Defined.

(** ** Runs of the loop *)

Section RunFacts.

Variable e : env.

Lemma iteration_returned (t_end pr : float) (st : S.state) (why : early) (y' : vec) :
  iteration e t_end pr st = Returned why y' -> y' = upd (S.y st) 0 logf_neg1.
Proof.
  unfold iteration. intros H.
  destruct (lu_stage e pr st) as [st1|s] eqn:L.
  - destruct (lu_stage_inl _ _ _ _ L) as (_ & _ & Hy & _).
    rewrite <- Hy. eapply step_body_returned; eauto.
  - subst s. destruct (lu_stage_inr _ _ _ _ L) as [E|(st2 & Hs & _)];
      [now inversion E | discriminate].
Qed.

Lemma iteration_accepted (t_end pr : float) (st st' : S.state) :
  iteration e t_end pr st = Accepted st' ->
  S.y0 st' = S.y st' /\ S.sc st' = scale e (S.y st') (S.y0 st).
Proof.
  unfold iteration. intros H.
  destruct (lu_stage e pr st) as [st1|s] eqn:L.
  - destruct (lu_stage_inl _ _ _ _ L) as (_ & _ & _ & Hy0 & _).
    destruct (step_body_accepted _ _ _ _ _ H) as (ns & Err & _ & _ & _ & Ha).
    destruct (accept_or_reject_accepted _ _ _ _ _ _ _ Ha) as (_ & _ & _ & H0 & Hsc & _).
    now rewrite <- Hy0.
  - subst s. destruct (lu_stage_inr _ _ _ _ L) as [?|(st2 & Hs & _)]; discriminate.
Qed.

(** At the head of every pass [y0] is a copy of [y]. *)
Lemma after_y0 (t_end pr : float) (n : nat) :
  forall st0 st, S.y0 st0 = S.y st0 -> after e n t_end pr st0 = Some st -> S.y0 st = S.y st.
Proof.
  induction n as [|n IH]; simpl; intros st0 st H0 H.
  - now inversion H; subst.
  - destruct (_ <? _); [|discriminate].
    destruct (iteration e t_end pr st0) as [s|s| |] eqn:I; try discriminate.
    + apply (IH s); [|exact H]. now destruct (iteration_accepted _ _ _ _ I).
    + apply (IH s); [|exact H].
      destruct (iteration_rejected _ _ _ _ _ I) as (Hy & Hy0 & _). congruence.
Qed.

Lemma reachable_y0 (t_start t_end pr : float) (y : vec) (st : S.state) :
  reachable e t_start t_end pr y st -> S.y0 st = S.y st.
Proof. intros [n H]. eapply after_y0; [|exact H]. reflexivity. Qed.

(** C7: after every accepted pass
    [sc[i] = 1 / (atol + max(|y_prev[i]|, |y_new[i]|) * rtol)], where [y_prev]
    is the solution at the head of the pass (the previously accepted state:
    rejected passes do not write [y]) and [y_new] the newly accepted one; at
    initialisation [sc[i] = 1 / (atol + |y0[i]| * rtol)]. *)
Theorem scale_rebuilt_on_accept (t_start t_end pr : float) (y : vec) :
  (forall i, (i < NN e)%nat ->
     (S.sc (init e t_start y)).[i] = 1.0 / (ATOL e + fabs y.[i] * RTOL e)) /\
  (forall st st',
     reachable e t_start t_end pr y st ->
     iteration e t_end pr st = Accepted st' ->
     forall i, (i < NN e)%nat ->
       (S.sc st').[i]
       = 1.0 / (ATOL e + fmax (fabs (S.y st).[i]) (fabs (S.y st').[i]) * RTOL e)).
Proof.
  split.
  - intros i Hi. simpl. unfold scale_init. now rewrite get_tabulate.
  - intros st st' R A i Hi.
    destruct (iteration_accepted _ _ _ _ A) as (_ & Hsc).
    rewrite Hsc, (reachable_y0 _ _ _ _ _ R). unfold scale.
    rewrite get_tabulate by exact Hi. now rewrite fmax_fabs_comm.
Qed.

(** A run that returns early hands back the last accepted [y] with
    [logf(-1)] in component 0. *)
Lemma early_return_from (t_end pr : float) (why : early) (y' : vec) (fuel : nat) :
  forall st,
    integrate_loop e fuel t_end pr st = ReturnedEarly why y' ->
    y' = upd (last_accepted e fuel t_end pr st (S.y st)) 0 logf_neg1.
Proof.
  induction fuel as [|fuel IH]; simpl; intros st H.
  - destruct (_ <? _); discriminate.
  - destruct (_ <? _); [|discriminate].
    destruct (iteration e t_end pr st) as [s|s|w y1|c] eqn:I.
    + now apply IH.
    + destruct (iteration_rejected _ _ _ _ _ I) as (Hy & _).
      rewrite <- Hy. now apply IH.
    + inversion H; subst. eapply iteration_returned; eauto.
    + discriminate.
Qed.

(** C10: when [integrate] returns early (five LU failures in a row, or the
    Newton loop unconverged in its last pass), the caller's array is the
    last accepted [y] with component 0 overwritten by the NaN [logf(-1)]:
    components [1..N-1] keep their last accepted values, and that NaN is
    all the call hands back. *)
Theorem early_return_marks_y0 (fuel : nat) (t_start t_end pr : float) (y y' : vec)
    (why : early) :
  integrate e fuel t_start t_end pr y = ReturnedEarly why y' ->
  y' = upd (last_accepted e fuel t_end pr (init e t_start y) y) 0 logf_neg1 /\
  (forall i, (0 < i)%nat ->
     y'.[i] = (last_accepted e fuel t_end pr (init e t_start y) y).[i]) /\
  (last_accepted e fuel t_end pr (init e t_start y) y <> [] -> is_nan y'.[0] = true).
Proof.
  unfold integrate. intros H. apply early_return_from in H. simpl in H.
  split; [exact H|]. split.
  - intros i Hi. rewrite H. now apply get_upd_other.
  - intros Hne. rewrite H, get_upd_same by exact Hne. reflexivity.
Qed.

End RunFacts.

(** The scale vector after the accepted first pass on [y' = 0]. *)
Lemma scale_rebuilt_on_accept_witness :
  exists st',
    iteration (Scalar.env 0 0 0) 1e-3 0 (init (Scalar.env 0 0 0) 0 [1]) = Accepted st' /\
    (S.sc st').[0]
    = 1.0 / (Scalar.atol + fmax (fabs 1) (fabs (S.y st').[0]) * Scalar.rtol).
Proof.
  assert (H : {st' | iteration (Scalar.env 0 0 0) 1e-3 0 (init (Scalar.env 0 0 0) 0 [1])
                     = Accepted st'})
    by (eexists; vm_compute; reflexivity).
  destruct H as [st' H]. exists st'. split; [exact H|].
  apply (proj2 (scale_rebuilt_on_accept (Scalar.env 0 0 0) 0 1e-3 0 [1])
           (init (Scalar.env 0 0 0) 0 [1]) st').
  - exists 0%nat. reflexivity.
  - exact H.
  - simpl. lia.
Defined.

(** [y' = J y] with all entries of [J] equal to 1e30: [gamma / h] is
    absorbed, [E1] is singular for every [h], and the fifth failed
    factorisation returns. *)
Lemma early_return_marks_y0_witness :
  integrate (Planar.env [1e30; 1e30; 1e30; 1e30] 0) 5 0 1 0 [3; -3]
  = ReturnedEarly LU_failed [nan; -3] /\
  [nan; -3]
  = upd (last_accepted (Planar.env [1e30; 1e30; 1e30; 1e30] 0) 5 1 0
           (init (Planar.env [1e30; 1e30; 1e30; 1e30] 0) 0 [3; -3]) [3; -3]) 0 logf_neg1.
Proof.
  assert (H : integrate (Planar.env [1e30; 1e30; 1e30; 1e30] 0) 5 0 1 0 [3; -3]
              = ReturnedEarly LU_failed [nan; -3]) by (vm_compute; reflexivity).
  split; [exact H|].
  exact (proj1 (early_return_marks_y0 _ _ _ _ _ _ _ _ H)).
Defined.

(** ** The Newton loop *)

Section NewtonFacts.

Variable e : env.

(** How the update of lines 549-565 ends, by the convergence test. *)
Lemma newton_update_cases (ns : N.state) (NI : float) (DZ1 DZ2 DZ3 : vec) :
  match newton_update e ns NI DZ1 DZ2 DZ3 with
  | NBreak ns' =>
      (N.NewtonRate ns * NI <=? NewtonTol) = true /\ N.NewtonDone ns' = true /\
      N.NewtonIter ns' = N.NewtonIter ns /\ N.NewtonRate ns' = N.NewtonRate ns
  | NNext ns' =>
      (N.NewtonRate ns * NI <=? NewtonTol) = false /\ N.NewtonDone ns' = false /\
      N.NewtonIter ns' = N.NewtonIter ns /\ N.Fac ns' = N.Fac ns /\
      N.NewtonIter ns <> (Z.of_nat NewtonMaxit - 1)%Z
  | NReturn =>
      (N.NewtonRate ns * NI <=? NewtonTol) = false /\
      N.NewtonIter ns = (Z.of_nat NewtonMaxit - 1)%Z
  | NExit _ => False
  end.
Proof.
  unfold newton_update.
  destruct (N.NewtonRate ns * NI <=? NewtonTol) eqn:T; cbv zeta; cbv iota.
  - simpl. repeat split.
  - destruct (N.NewtonIter ns =? Z.of_nat NewtonMaxit - 1)%Z eqn:K.
    + apply Z.eqb_eq in K. split; [reflexivity | exact K].
    + apply Z.eqb_neq in K. simpl. repeat split. exact K.
Qed.

(** A pass that goes on to the next one has not converged, keeps [Fac] and
    is not the last. *)
Lemma newton_body_next (pr : float) (st : S.state) (ns ns' : N.state) :
  newton_body e pr st ns = NNext ns' ->
  N.NewtonDone ns' = false /\ N.NewtonIter ns' = N.NewtonIter ns /\
  N.Fac ns' = N.Fac ns /\ N.NewtonIter ns <> (Z.of_nat NewtonMaxit - 1)%Z.
Proof.
  unfold newton_body. intros H.
  destruct (newton_increment e pr st ns) as [[[[NI DZ1] DZ2] DZ3]|c]; [|discriminate].
  repeat match type of H with
  | (if ?c then _ else _) = _ => destruct c
  end; try discriminate;
  match type of H with
  | newton_update e ?n ?a ?b ?c ?d = _ =>
      pose proof (newton_update_cases n a b c d) as U; rewrite H in U;
      destruct U as (_ & ? & ? & ? & ?); simpl in *; auto
  end.
Qed.

(** A pass that breaks keeps the pass counter. *)
Lemma newton_body_break (pr : float) (st : S.state) (ns ns' : N.state) :
  newton_body e pr st ns = NBreak ns' -> N.NewtonIter ns' = N.NewtonIter ns.
Proof.
  unfold newton_body. intros H.
  destruct (newton_increment e pr st ns) as [[[[NI DZ1] DZ2] DZ3]|c]; [|discriminate].
  repeat match type of H with
  | (if ?c then _ else _) = _ => destruct c
  end;
  try (inversion H; subst; reflexivity);
  match type of H with
  | newton_update e ?n ?a ?b ?c ?d = _ =>
      pose proof (newton_update_cases n a b c d) as U; rewrite H in U;
      destruct U as (_ & _ & ? & _); simpl in *; auto
  end.
Qed.

(** The pass counter equals the pass index; [Fac] is still 0.5 and
    [NewtonDone] still false at the head of every pass; no pass past index
    [NewtonMaxit - 1] starts. *)
Lemma newton_at_inv (pr : float) (st : S.state) (k : nat) :
  forall (j : nat) (ns0 ns : N.state),
    N.NewtonIter ns0 = Z.of_nat j -> N.Fac ns0 = 0.5 -> N.NewtonDone ns0 = false ->
    (j < NewtonMaxit)%nat ->
    newton_at e pr st k ns0 = Some ns ->
    N.NewtonIter ns = Z.of_nat (j + k) /\ N.Fac ns = 0.5 /\ N.NewtonDone ns = false /\
    (j + k < NewtonMaxit)%nat.
Proof.
  induction k as [|k IH]; simpl; intros j ns0 ns Hi Hf Hd Hj H.
  - inversion H; subst. rewrite Nat.add_0_r. auto.
  - destruct (newton_body e pr st ns0) as [ns1| | |] eqn:B; try discriminate.
    destruct (newton_body_next _ _ _ _ B) as (Hd1 & Hi1 & Hf1 & Hlast).
    assert (Hj1 : (S j < NewtonMaxit)%nat)
      by (unfold NewtonMaxit in *; rewrite Hi in Hlast; lia).
    destruct (IH (S j) (N.set_NewtonIter ns1 (N.NewtonIter ns1 + 1)) ns)
      as (? & ? & ? & ?); simpl; try congruence; auto.
    + rewrite Hi1, Hi. lia.
    + rewrite <- Nat.add_succ_comm. auto.
Qed.

(** The loop from its entry is the loop from the head of any pass it reaches. *)
Lemma newton_for_at (pr : float) (st : S.state) (k : nat) :
  forall (m : nat) (ns0 ns : N.state),
    newton_at e pr st k ns0 = Some ns ->
    newton_for e pr st (k + m) ns0 = newton_for e pr st m ns.
Proof.
  induction k as [|k IH]; simpl; intros m ns0 ns H.
  - now inversion H.
  - destruct (newton_body e pr st ns0); try discriminate. now apply IH.
Qed.

(** When the loop is left, the pass counter is that of a pass it made. *)
Lemma newton_for_left (pr : float) (st : S.state) (n : nat) :
  forall (ns0 ns' : N.state),
    (1 <= n)%nat -> (0 <= N.NewtonIter ns0)%Z ->
    (N.NewtonIter ns0 + Z.of_nat n = Z.of_nat NewtonMaxit)%Z ->
    newton_for e pr st n ns0 = NLeft ns' ->
    (0 <= N.NewtonIter ns' < Z.of_nat NewtonMaxit)%Z.
Proof.
  induction n as [|n IH]; intros ns0 ns' Hn H0 Hsum H; [lia|]. simpl in H.
  destruct (newton_body e pr st ns0) as [ns1|ns1| |] eqn:B; try discriminate.
  - destruct (newton_body_next _ _ _ _ B) as (_ & Hi & _ & Hlast).
    unfold NewtonMaxit in *.
    apply (IH (N.set_NewtonIter ns1 (N.NewtonIter ns1 + 1))); simpl;
      [lia | rewrite Hi; lia | rewrite Hi; lia | exact H].
  - inversion H; subst. rewrite (newton_body_break _ _ _ _ B). lia.
Qed.

(** A pass breaks either without declaring convergence, or through the
    test [NewtonRate * NewtonIncrement <= NewtonTol] on its increment. *)
Lemma newton_body_break_cases (pr : float) (st : S.state) (ns ns' : N.state) :
  newton_body e pr st ns = NBreak ns' ->
  N.NewtonDone ns = false ->
  N.NewtonDone ns' = false \/
  exists NI DZ1 DZ2 DZ3,
    newton_increment e pr st ns = Ok (NI, DZ1, DZ2, DZ3) /\
    N.NewtonDone ns' = true /\ (N.NewtonRate ns' * NI <=? NewtonTol) = true.
Proof.
  unfold newton_body. intros H Hd.
  destruct (newton_increment e pr st ns) as [[[[NI DZ1] DZ2] DZ3]|c]; [|discriminate].
  repeat match type of H with
  | (if ?c then _ else _) = _ => destruct c
  end;
  try (left; inversion H; subst; simpl; exact Hd);
  right; exists NI, DZ1, DZ2, DZ3;
  match type of H with
  | newton_update e ?n ?a ?b ?c ?d = _ =>
      pose proof (newton_update_cases n a b c d) as U; rewrite H in U;
      destruct U as (T & D & _ & R); rewrite R; auto
  end.
Qed.

Lemma newton_for_converged (pr : float) (st : S.state) (n : nat) :
  forall (ns0 ns' : N.state),
    N.NewtonDone ns0 = false ->
    newton_for e pr st n ns0 = NLeft ns' -> N.NewtonDone ns' = true ->
    exists k ns NI DZ1 DZ2 DZ3,
      newton_at e pr st k ns0 = Some ns /\
      newton_increment e pr st ns = Ok (NI, DZ1, DZ2, DZ3) /\
      (N.NewtonRate ns' * NI <=? NewtonTol) = true.
Proof.
  induction n as [|n IH]; simpl; intros ns0 ns' Hd H D.
  - inversion H; subst. congruence.
  - destruct (newton_body e pr st ns0) as [ns1|ns1| |] eqn:B; try discriminate.
    + destruct (newton_body_next _ _ _ _ B) as (Hd1 & _).
      destruct (IH (N.set_NewtonIter ns1 (N.NewtonIter ns1 + 1)) ns' Hd1 H D)
        as (k & ns & NI & DZ1 & DZ2 & DZ3 & Hk & Hinc & T).
      exists (S k), ns, NI, DZ1, DZ2, DZ3. simpl. rewrite B. auto.
    + inversion H; subst.
      destruct (newton_body_break_cases _ _ _ _ B Hd)
        as [F|(NI & DZ1 & DZ2 & DZ3 & Hinc & _ & T)]; [congruence|].
      exists 0%nat, ns0, NI, DZ1, DZ2, DZ3. auto.
Qed.

(** From the second pass on, [Theta >= 0.99] breaks the loop and changes
    nothing but [Theta]. *)
Lemma newton_body_theta (pr : float) (st : S.state) (ns : N.state)
    (NI : float) (DZ1 DZ2 DZ3 : vec) :
  (0 < N.NewtonIter ns)%Z ->
  newton_increment e pr st ns = Ok (NI, DZ1, DZ2, DZ3) ->
  geb (NI / N.NewtonIncrementOld ns) 0.99 = true ->
  newton_body e pr st ns = NBreak (N.set_Theta ns (NI / N.NewtonIncrementOld ns)).
Proof.
  intros Hk Hinc HT. unfold newton_body. rewrite Hinc.
  apply Z.ltb_lt in Hk. rewrite Hk. now rewrite (geb_not_ltb _ _ HT).
Qed.

Lemma newton_start_inv (st : S.state) :
  N.NewtonIter (newton_start e st) = 0%Z /\ N.Fac (newton_start e st) = 0.5 /\
  N.NewtonDone (newton_start e st) = false.
Proof.
  unfold newton_start.
  destruct (if S.FirstStep st || negb StartNewton then _ else _) as [[Z1 Z2] Z3].
  simpl. auto.
Qed.

Lemma newton_at_start (pr : float) (st : S.state) (k : nat) (ns : N.state) :
  newton_at e pr st k (newton_start e st) = Some ns ->
  N.NewtonIter ns = Z.of_nat k /\ N.Fac ns = 0.5 /\ N.NewtonDone ns = false /\
  (k < NewtonMaxit)%nat.
Proof.
  intros H. destruct (newton_start_inv st) as (Hi & Hf & Hd).
  apply (newton_at_inv pr st k 0 _ _ Hi Hf Hd) in H; [exact H|].
  unfold NewtonMaxit. lia.
Qed.

(** Where the loop goes from the head of a pass it reaches. *)
Lemma newton_run_from (pr : float) (st : S.state) (k : nat) (ns : N.state) :
  newton_at e pr st k (newton_start e st) = Some ns ->
  newton_run e pr st
  = match newton_body e pr st ns with
    | NNext ns' =>
        newton_for e pr st (NewtonMaxit - S k) (N.set_NewtonIter ns' (N.NewtonIter ns' + 1))
    | NBreak ns' => NLeft ns'
    | NReturn => NReturned
    | NExit c => NExited c
    end.
Proof.
  intros Hat. destruct (newton_at_start _ _ _ _ Hat) as (_ & _ & _ & Hlt).
  unfold newton_run.
  replace NewtonMaxit with (k + S (NewtonMaxit - S k))%nat at 1 by lia.
  rewrite (newton_for_at _ _ _ _ _ _ Hat). reflexivity.
Qed.

Lemma newton_at_snoc (pr : float) (st : S.state) (k : nat) :
  forall ns0 ns ns',
    newton_at e pr st k ns0 = Some ns ->
    newton_body e pr st ns = NNext ns' ->
    newton_at e pr st (S k) ns0 = Some (N.set_NewtonIter ns' (N.NewtonIter ns' + 1)).
Proof.
  induction k as [|k IH]; intros ns0 ns ns' Hat Hb.
  - inversion Hat; subst. simpl. now rewrite Hb.
  - simpl in Hat. remember (S k) as m. simpl.
    destruct (newton_body e pr st ns0) as [ns1| | |]; try discriminate.
    subst m. eapply IH; eauto.
Qed.

(** A pass that reaches line 549 ends as [newton_update] says. *)
Lemma newton_body_first (pr : float) (st : S.state) (ns : N.state)
    (NI : float) (DZ1 DZ2 DZ3 : vec) :
  N.NewtonIter ns = 0%Z ->
  newton_increment e pr st ns = Ok (NI, DZ1, DZ2, DZ3) ->
  newton_body e pr st ns = newton_update e (N.set_Theta ns ThetaMin) NI DZ1 DZ2 DZ3.
Proof.
  intros Hk Hinc. unfold newton_body. rewrite Hinc, Hk. reflexivity.
Qed.

Lemma newton_body_later (pr : float) (st : S.state) (ns : N.state)
    (NI : float) (DZ1 DZ2 DZ3 : vec) :
  (0 < N.NewtonIter ns < Z.of_nat NewtonMaxit)%Z ->
  newton_increment e pr st ns = Ok (NI, DZ1, DZ2, DZ3) ->
  (NI / N.NewtonIncrementOld ns <? 0.99) = true ->
  newton_body e pr st ns
  = let Theta := NI / N.NewtonIncrementOld ns in
    let ns1 := N.set_NewtonRate (N.set_Theta ns Theta) (Theta / (1.0 - Theta)) in
    let NewtonPredictedErr :=
      (NI * pow e Theta (of_int (Z.of_nat NewtonMaxit - N.NewtonIter ns - 1)))
      / (1.0 - Theta) in
    if geb NewtonPredictedErr NewtonTol then
      NBreak (N.set_Fac ns1
                (0.8 * pow e (fmin 10.0 (NewtonPredictedErr / NewtonTol))
                         (-1.0 / of_int (Z.of_nat NewtonMaxit - N.NewtonIter ns))))
    else newton_update e ns1 NI DZ1 DZ2 DZ3.
Proof.
  intros [Hk Hm] Hinc HT. unfold newton_body. rewrite Hinc.
  apply Z.ltb_lt in Hk, Hm. rewrite Hk, HT, Hm. reflexivity.
Qed.

(** C3: the Newton loop of a pass makes at most [NewtonMaxit = 8] passes;
    it declares convergence exactly when
    [NewtonRate * NewtonIncrement <= NewtonTol = 0.03]; and [Theta >= 0.99]
    in a pass [k >= 1] breaks the loop, after which the step is retried
    with [h] multiplied by [Fac = 0.5].

    The last three parts follow every pass [k] the loop reaches to its
    end.  A pass that reaches the update of lines 549-557 (the first pass;
    a later one with [Theta < 0.99] and a predicted error below
    [NewtonTol]) subtracts the increments from [Z1..Z3], stores
    [fmax(NewtonIncrement, Roundoff)], and then: leaves the loop with
    [NewtonDone] set when the test holds; returns from [integrate] when it
    fails in pass [NewtonMaxit - 1]; goes on to pass [k + 1] otherwise.  A
    later pass with [Theta < 0.99] and a predicted error of at least
    [NewtonTol] leaves the loop with the reduced [Fac] and [NewtonDone]
    clear.  An [exit] inside [RK_Solve] ends the loop. *)
Theorem newton_loop_control (t_end pr : float) (st st1 : S.state) :
  lu_stage e pr st = inl st1 ->
  (NewtonMaxit = 8%nat /\ NewtonTol = 0.03) /\
  (forall k ns,
     newton_at e pr st1 k (newton_start e st1) = Some ns ->
     (k < NewtonMaxit)%nat /\ N.NewtonIter ns = Z.of_nat k) /\
  (forall ns,
     newton_run e pr st1 = NLeft ns -> (0 <= N.NewtonIter ns < Z.of_nat NewtonMaxit)%Z) /\
  (forall ns NI DZ1 DZ2 DZ3,
     (exists ns', newton_update e ns NI DZ1 DZ2 DZ3 = NBreak ns' /\ N.NewtonDone ns' = true)
     <-> (N.NewtonRate ns * NI <=? NewtonTol) = true) /\
  (forall ns',
     newton_run e pr st1 = NLeft ns' -> N.NewtonDone ns' = true ->
     exists k ns NI DZ1 DZ2 DZ3,
       newton_at e pr st1 k (newton_start e st1) = Some ns /\
       newton_increment e pr st1 ns = Ok (NI, DZ1, DZ2, DZ3) /\
       (N.NewtonRate ns' * NI <=? NewtonTol) = true) /\
  (forall k ns NI DZ1 DZ2 DZ3,
     (1 <= k)%nat ->
     newton_at e pr st1 k (newton_start e st1) = Some ns ->
     newton_increment e pr st1 ns = Ok (NI, DZ1, DZ2, DZ3) ->
     geb (NI / N.NewtonIncrementOld ns) 0.99 = true ->
     newton_run e pr st1 = NLeft (N.set_Theta ns (NI / N.NewtonIncrementOld ns)) /\
     N.Fac ns = 0.5 /\
     ((S.Nsteps st1 + 1 >=? Max_no_steps)%Z = false ->
      (0.1 * fabs (S.H st1) <=? fabs (S.t st1) * Roundoff) = false ->
      exists st',
        iteration e t_end pr st = Rejected st' /\
        S.H st' = 0.5 * S.H st /\ S.t st' = S.t st /\ S.y st' = S.y st /\
        S.Reject st' = true /\ S.SkipJac st' = true /\ S.SkipLU st' = false)) /\
  (forall k ns NI DZ1 DZ2 DZ3 ns1,
     newton_at e pr st1 k (newton_start e st1) = Some ns ->
     newton_increment e pr st1 ns = Ok (NI, DZ1, DZ2, DZ3) ->
     (k = 0%nat /\ ns1 = N.set_Theta ns ThetaMin) \/
     ((1 <= k)%nat /\
      (NI / N.NewtonIncrementOld ns <? 0.99) = true /\
      geb ((NI * pow e (NI / N.NewtonIncrementOld ns)
                   (of_int (Z.of_nat NewtonMaxit - Z.of_nat k - 1)))
           / (1.0 - NI / N.NewtonIncrementOld ns)) NewtonTol = false /\
      ns1 = N.set_NewtonRate (N.set_Theta ns (NI / N.NewtonIncrementOld ns))
              (NI / N.NewtonIncrementOld ns / (1.0 - NI / N.NewtonIncrementOld ns))) ->
     let updated (done : bool) :=
       N.mk (tabulate (NN e) (fun i => (N.Z1 ns).[i] - DZ1.[i]))
            (tabulate (NN e) (fun i => (N.Z2 ns).[i] - DZ2.[i]))
            (tabulate (NN e) (fun i => (N.Z3 ns).[i] - DZ3.[i]))
            done (fmax NI Roundoff) 0.5 (Z.of_nat k) (N.Theta ns1) (N.NewtonRate ns1) in
     if N.NewtonRate ns1 * NI <=? NewtonTol
     then newton_run e pr st1 = NLeft (updated true)
     else if (k =? NewtonMaxit - 1)%nat
          then newton_run e pr st1 = NReturned
          else newton_at e pr st1 (S k) (newton_start e st1)
               = Some (N.set_NewtonIter (updated false) (Z.of_nat k + 1))) /\
  (forall k ns NI DZ1 DZ2 DZ3,
     (1 <= k)%nat ->
     newton_at e pr st1 k (newton_start e st1) = Some ns ->
     newton_increment e pr st1 ns = Ok (NI, DZ1, DZ2, DZ3) ->
     (NI / N.NewtonIncrementOld ns <? 0.99) = true ->
     geb ((NI * pow e (NI / N.NewtonIncrementOld ns)
                  (of_int (Z.of_nat NewtonMaxit - Z.of_nat k - 1)))
          / (1.0 - NI / N.NewtonIncrementOld ns)) NewtonTol = true ->
     newton_run e pr st1
     = NLeft (N.set_Fac
                (N.set_NewtonRate (N.set_Theta ns (NI / N.NewtonIncrementOld ns))
                   (NI / N.NewtonIncrementOld ns / (1.0 - NI / N.NewtonIncrementOld ns)))
                (0.8 * pow e
                         (fmin 10.0
                            ((NI * pow e (NI / N.NewtonIncrementOld ns)
                                     (of_int (Z.of_nat NewtonMaxit - Z.of_nat k - 1)))
                             / (1.0 - NI / N.NewtonIncrementOld ns) / NewtonTol))
                         (-1.0 / of_int (Z.of_nat NewtonMaxit - Z.of_nat k)))) /\
     N.NewtonDone ns = false) /\
  (forall k ns c,
     newton_at e pr st1 k (newton_start e st1) = Some ns ->
     newton_increment e pr st1 ns = Exit c ->
     newton_run e pr st1 = NExited c).
Proof.
  intros L. destruct (newton_start_inv st1) as (Hi0 & Hf0 & Hd0).
  split; [split; reflexivity|]. split; [|split; [|split; [|split; [|split; [|split; [|split]]]]]].
  - intros k ns H. destruct (newton_at_start _ _ _ _ H) as (? & _ & _ & ?). auto.
  - intros ns H. unfold newton_run in H.
    apply (newton_for_left _ _ _ _ _) in H; auto; try rewrite Hi0; unfold NewtonMaxit; lia.
  - intros ns NI DZ1 DZ2 DZ3.
    pose proof (newton_update_cases ns NI DZ1 DZ2 DZ3) as U. split.
    + intros (ns' & Hu & _). rewrite Hu in U. tauto.
    + intros T. destruct (newton_update e ns NI DZ1 DZ2 DZ3) as [ns'|ns'| |].
      * destruct U; congruence.
      * exists ns'. tauto.
      * destruct U; congruence.
      * contradiction.
  - intros ns' H D. exact (newton_for_converged _ _ _ _ _ Hd0 H D).
  - intros k ns NI DZ1 DZ2 DZ3 Hk Hat Hinc HT.
    destruct (newton_at_start _ _ _ _ Hat) as (Hik & Hf & Hd & Hlt).
    assert (Hrun : newton_run e pr st1
                   = NLeft (N.set_Theta ns (NI / N.NewtonIncrementOld ns))).
    { unfold newton_run.
      replace NewtonMaxit with (k + S (NewtonMaxit - S k))%nat by lia.
      rewrite (newton_for_at _ _ _ _ _ _ Hat). simpl.
      rewrite (newton_body_theta pr st1 ns NI DZ1 DZ2 DZ3); auto. lia. }
    split; [exact Hrun|]. split; [exact Hf|].
    intros Hs Hu. destruct (lu_stage_inl _ _ _ _ L) as (Ht & HH & Hy & _).
    eexists. split.
    + unfold iteration. rewrite L. unfold step_body. rewrite Hs, Hu, Hrun. simpl.
      rewrite Hd. simpl. reflexivity.
    + simpl. rewrite Hf, HH, Ht, Hy. repeat split.
  - intros k ns NI DZ1 DZ2 DZ3 ns1 Hat Hinc Hcase updated.
    destruct (newton_at_start _ _ _ _ Hat) as (Hik & Hf & Hd & Hlt).
    assert (Hb : newton_body e pr st1 ns = newton_update e ns1 NI DZ1 DZ2 DZ3).
    { destruct Hcase as [(-> & ->)|(Hk & HT & HP & ->)].
      - now apply newton_body_first.
      - rewrite <- Hik in HP.
        rewrite (newton_body_later pr st1 ns NI DZ1 DZ2 DZ3); auto;
          [|unfold NewtonMaxit in *; lia].
        cbv zeta. now rewrite HP. }
    assert (Hi1 : N.NewtonIter ns1 = Z.of_nat k /\ N.Fac ns1 = 0.5 /\
                  N.Z1 ns1 = N.Z1 ns /\ N.Z2 ns1 = N.Z2 ns /\ N.Z3 ns1 = N.Z3 ns)
      by (destruct Hcase as [(_ & ->)|(_ & _ & _ & ->)]; simpl; auto).
    destruct Hi1 as (Hi1 & Hf1 & E1 & E2 & E3).
    pose proof (newton_run_from _ _ _ _ Hat) as Hrun.
    pose proof (fun ns' => newton_at_snoc pr st1 k (newton_start e st1) ns ns' Hat) as Hsnoc.
    rewrite Hb in Hrun. unfold newton_update in Hb, Hrun.
    rewrite Hi1, Hf1, E1, E2, E3 in Hb, Hrun.
    destruct (N.NewtonRate ns1 * NI <=? NewtonTol); [exact Hrun|].
    destruct (k =? NewtonMaxit - 1)%nat eqn:K.
    + apply Nat.eqb_eq in K.
      replace (Z.of_nat k =? Z.of_nat NewtonMaxit - 1)%Z with true in Hrun
        by (symmetry; apply Z.eqb_eq; unfold NewtonMaxit in *; lia).
      exact Hrun.
    + apply Nat.eqb_neq in K.
      replace (Z.of_nat k =? Z.of_nat NewtonMaxit - 1)%Z with false in Hb
        by (symmetry; apply Z.eqb_neq; unfold NewtonMaxit in *; lia).
      exact (Hsnoc _ Hb).
  - intros k ns NI DZ1 DZ2 DZ3 Hk Hat Hinc HT HP.
    destruct (newton_at_start _ _ _ _ Hat) as (Hik & Hf & Hd & Hlt).
    split; [|exact Hd].
    rewrite (newton_run_from _ _ _ _ Hat).
    rewrite (newton_body_later pr st1 ns NI DZ1 DZ2 DZ3); auto;
      [|unfold NewtonMaxit in *; lia].
    cbv zeta. rewrite Hik, HP. reflexivity.
  - intros k ns c Hat Hinc. rewrite (newton_run_from _ _ _ _ Hat).
    unfold newton_body. now rewrite Hinc.
Qed.

End NewtonFacts.

(** On [y' = 1e8 * y] with a zero Jacobian hook the second Newton pass of
    the first pass of [integrate] sees [Theta >= 0.99] and the step is
    retried with half the step size; on [y' = 0] the first Newton pass
    converges and the loop is left with [NewtonDone] set. *)
Lemma newton_loop_control_witness :
  (exists st',
     iteration (Scalar.env 1e8 0 0) 1 0 (init (Scalar.env 1e8 0 0) 0 [1]) = Rejected st' /\
     S.H st' = 0.5 * S.H (init (Scalar.env 1e8 0 0) 0 [1])) /\
  (exists st1 ns',
     lu_stage (Scalar.env 0 0 0) 0 (init (Scalar.env 0 0 0) 0 [1]) = inl st1 /\
     newton_run (Scalar.env 0 0 0) 0 st1 = NLeft ns' /\
     N.NewtonDone ns' = true /\ N.NewtonIter ns' = 0%Z).
Proof.
  split.
  - eassert (L : lu_stage (Scalar.env 1e8 0 0) 0 (init (Scalar.env 1e8 0 0) 0 [1]) = inl _)
      by (vm_compute; reflexivity).
    match type of L with
    | _ = inl ?s =>
      eassert (A : newton_at (Scalar.env 1e8 0 0) 0 s 1 (newton_start (Scalar.env 1e8 0 0) s)
                   = Some _)
        by (vm_compute; reflexivity)
    end.
    match type of A with
    | newton_at _ _ ?s _ _ = Some ?ns =>
      eassert (I : newton_increment (Scalar.env 1e8 0 0) 0 s ns = Ok (_, _, _, _))
        by (vm_compute; reflexivity)
    end.
    match type of I with
    | newton_increment _ _ ?s ?ns = Ok (?NI, ?DZ1, ?DZ2, ?DZ3) =>
      destruct (newton_loop_control (Scalar.env 1e8 0 0) 1 0 _ _ L)
        as (_ & _ & _ & _ & _ & T & _);
      destruct (T 1%nat ns NI DZ1 DZ2 DZ3 (le_n 1) A I) as (_ & _ & R);
        [vm_compute; reflexivity|]
    end.
    destruct R as (st' & R & HH & _);
      [vm_compute; reflexivity | vm_compute; reflexivity | exists st'; auto].
  - eassert (L : lu_stage (Scalar.env 0 0 0) 0 (init (Scalar.env 0 0 0) 0 [1]) = inl _)
      by (vm_compute; reflexivity).
    match type of L with
    | _ = inl ?s =>
      eassert (I : newton_increment (Scalar.env 0 0 0) 0 s (newton_start (Scalar.env 0 0 0) s)
                   = Ok (_, _, _, _))
        by (vm_compute; reflexivity)
    end.
    match type of I with
    | newton_increment _ _ ?s ?ns = Ok (?NI, ?DZ1, ?DZ2, ?DZ3) =>
      destruct (newton_loop_control (Scalar.env 0 0 0) 1 0 _ _ L)
        as (_ & _ & _ & _ & _ & _ & T & _);
      pose proof (T 0%nat ns NI DZ1 DZ2 DZ3 (N.set_Theta ns ThetaMin) eq_refl I
                    (or_introl (conj eq_refl eq_refl))) as R
    end.
    cbv zeta in R.
    match type of R with
    | if ?c then _ else _ => assert (C : c = true) by (vm_compute; reflexivity)
    end.
    rewrite C in R. do 2 eexists. split; [exact L|]. split; [exact R|].
    split; reflexivity.
Defined.

(** ** The fatal paths *)

Section FatalFacts.

Variable e : env.

(** Once the factorisation has succeeded, the step count reaching
    [Max_no_steps] and a step size below the resolution of [t] both end in
    [exit(-1)]. *)
Lemma step_body_exits (t_end pr : float) (st : S.state) :
  (S.Nsteps st + 1 >=? Max_no_steps)%Z = true \/
  (0.1 * fabs (S.H st) <=? fabs (S.t st) * Roundoff) = true ->
  step_body e t_end pr st = Exited (-1).
Proof.
  unfold step_body. intros [H|H]; rewrite H; [reflexivity|].
  now destruct (_ >=? _)%Z.
Qed.

End FatalFacts.

(** C2: [integrate (t_start = 1e9, t_end = 2e9)] on [y' = 0], [y = [1]]:
    the first pass finds [0.1 * |h| <= |t| * Roundoff] and the call ends in
    [exit(-1)]; no value is returned. *)
Theorem integrate_exits_process :
  integrate (Scalar.env 0 0 0) 1 1e9 2e9 0 [1] = ProcessExit (-1).
Proof. vm_compute. reflexivity. Qed.

(** ** Reuse of the factorisation *)

(** [SkipLU] comes out set either because it went in set and [H] became
    [t_end - t] (line 683 does not write it), or because
    [Theta <= ThetaMin] and [Hnew / H] lies in [[Qmin, Qmax]], with [H]
    kept. *)
Lemma reuse_decision_cases (t_end t H Hnew Theta H' : float) (SkipLU : bool) :
  reuse_decision t_end t H Hnew Theta SkipLU = (H', true) ->
  (SkipLU = true /\ H' = t_end - t) \/
  (H' = H /\ (Theta <=? ThetaMin) = true /\
   geb (Hnew / H) Qmin = true /\ (Hnew / H <=? Qmax) = true).
Proof.
  unfold reuse_decision. destruct (geb (t + Hnew / Qmin - t_end) 0.0).
  - intros [= <- ->]. auto.
  - cbv zeta.
    destruct (Theta <=? ThetaMin), (geb (Hnew / H) Qmin), (Hnew / H <=? Qmax);
      simpl; intros [= <-]; auto.
Qed.

Lemma accept_or_reject_SkipLU (e : env) (t_end : float) (st st' : S.state) (Nsteps : Z)
    (ns : N.state) (Err : float) :
  accept_or_reject e t_end st Nsteps ns Err = Accepted st' ->
  exists Hnew,
    reuse_decision t_end (S.t st') (S.H st) Hnew (N.Theta ns) (S.SkipLU st)
    = (S.H st', S.SkipLU st').
Proof.
  unfold accept_or_reject. intros H.
  destruct (Err <? 1.0); [|discriminate].
  match type of H with
  | context [reuse_decision ?a ?b ?c ?d ?f ?g] =>
      exists d; destruct (reuse_decision a b c d f g) as [H' b'] eqn:R
  end.
  inversion H; subst; simpl. exact R.
Qed.

(** The decision of lines 682-689 is taken on the [Hnew] of the pass. *)
Lemma accept_or_reject_reuse (e : env) (t_end : float) (st st' : S.state) (Nsteps : Z)
    (ns : N.state) (Err : float) :
  accept_or_reject e t_end st Nsteps ns Err = Accepted st' ->
  reuse_decision t_end (S.t st') (S.H st) (Hnew_accepted e t_end st ns Err)
    (N.Theta ns) (S.SkipLU st)
  = (S.H st', S.SkipLU st').
Proof.
  unfold accept_or_reject, Hnew_accepted. intros H.
  destruct (Err <? 1.0); [|discriminate].
  match type of H with
  | context [reuse_decision ?a ?b ?c ?d ?f ?g] =>
      destruct (reuse_decision a b c d f g) as [H' b'] eqn:R
  end.
  inversion H; subst; simpl. exact R.
Qed.

Lemma reuse_decision_eq (t_end t H Hnew Theta : float) (SkipLU : bool) :
  reuse_decision t_end t H Hnew Theta SkipLU
  = (if geb (t + Hnew / Qmin - t_end) 0.0 then t_end - t
     else if (Theta <=? ThetaMin) && geb (Hnew / H) Qmin && (Hnew / H <=? Qmax)
          then H else Hnew,
     if geb (t + Hnew / Qmin - t_end) 0.0 then SkipLU
     else (Theta <=? ThetaMin) && geb (Hnew / H) Qmin && (Hnew / H <=? Qmax)).
Proof.
  unfold reuse_decision. destruct (geb (t + Hnew / Qmin - t_end) 0.0); [reflexivity|].
  cbv zeta. now destruct ((Theta <=? ThetaMin) && geb (Hnew / H) Qmin && (Hnew / H <=? Qmax)).
Qed.

Lemma lu_stage_memory (e : env) (pr : float) (st st1 : S.state) :
  lu_stage e pr st = inl st1 -> S.Hacc st1 = S.Hacc st /\ S.ErrOld st1 = S.ErrOld st.
Proof.
  unfold lu_stage. intros H.
  repeat match type of H with
  | context [let '(_, _) := ?x in _] => destruct x
  | context [if ?c then _ else _] => destruct c
  end; inversion H; subst; simpl; auto.
Qed.

Lemma Hnew_accepted_frame (e : env) (t_end : float) (st st1 : S.state) (ns : N.state)
    (Err : float) :
  S.H st1 = S.H st -> S.t st1 = S.t st -> S.FirstStep st1 = S.FirstStep st ->
  S.Reject st1 = S.Reject st -> S.Hacc st1 = S.Hacc st -> S.ErrOld st1 = S.ErrOld st ->
  Hnew_accepted e t_end st1 ns Err = Hnew_accepted e t_end st ns Err.
Proof.
  intros E1 E2 E3 E4 E5 E6. unfold Hnew_accepted. now rewrite E1, E2, E3, E4, E5, E6.
Qed.

(** A rejected pass leaves [SkipLU] clear.  An accepted pass went through
    the factorisation stage, a Newton loop that was left with [ns] and an
    error estimate [Err]; with [Hnew] the step size these propose at line
    682, it leaves [SkipLU] as it found it and takes [H = t_end - t] when
    [t + Hnew / Qmin - t_end >= 0]; otherwise it sets [SkipLU] exactly when
    [Theta <= ThetaMin] and [Hnew / H] lies in [[Qmin, Qmax]], keeping [H]
    in that case and taking [Hnew] in the other. *)
Theorem skip_lu_after_pass (e : env) (t_end pr : float) (st st' : S.state) :
  (iteration e t_end pr st = Rejected st' -> S.SkipLU st' = false) /\
  (iteration e t_end pr st = Accepted st' ->
   exists st1 ns Err,
     lu_stage e pr st = inl st1 /\
     newton_run e pr st1 = NLeft ns /\
     RK_ErrorEstimate e (S.H st1) (S.t st1) pr (S.y st1) (S.F0 st1)
       (N.Z1 ns) (N.Z2 ns) (N.Z3 ns) (S.sc st1) (S.E1 st1) (S.ipiv1 st1)
       (S.FirstStep st1) (S.Reject st1) = Ok Err /\
     let Hnew := Hnew_accepted e t_end st ns Err in
     let last := geb (S.t st' + Hnew / Qmin - t_end) 0.0 in
     let reuse :=
       (N.Theta ns <=? ThetaMin) && geb (Hnew / S.H st) Qmin && (Hnew / S.H st <=? Qmax) in
     S.SkipLU st' = (if last then S.SkipLU st else reuse) /\
     S.H st' = (if last then t_end - S.t st' else if reuse then S.H st else Hnew)).
Proof.
  split.
  - intros H. now destruct (iteration_rejected _ _ _ _ _ H) as (_ & _ & ?).
  - unfold iteration. intros H.
    destruct (lu_stage e pr st) as [st1|s] eqn:L.
    + destruct (lu_stage_inl _ _ _ _ L) as (Ht & HH & _ & _ & _ & HR & HF & HS & _).
      destruct (lu_stage_memory _ _ _ _ L) as (Hac & Her).
      destruct (step_body_accepted _ _ _ _ _ H) as (ns & Err & Hn & _ & He & Ha).
      pose proof (accept_or_reject_reuse _ _ _ _ _ _ _ Ha) as R.
      rewrite (Hnew_accepted_frame e t_end st st1 ns Err HH Ht HF HR Hac Her) in R.
      rewrite reuse_decision_eq, HH, HS in R. injection R as R1 R2.
      exists st1, ns, Err. cbv zeta. auto.
    + subst s. destruct (lu_stage_inr _ _ _ _ L) as [?|(st2 & Hs2 & _)]; discriminate.
Qed.

(** The second pass on [y' = pole * y] is accepted with [SkipLU] set and
    [H] kept. *)
Lemma skip_lu_after_pass_witness :
  exists st st',
    after (Scalar.env Scalar.pole Scalar.pole 0) 1 1e-6 0
      (init (Scalar.env Scalar.pole Scalar.pole 0) 0 [0]) = Some st /\
    iteration (Scalar.env Scalar.pole Scalar.pole 0) 1e-6 0 st = Accepted st' /\
    S.SkipLU st' = true /\ S.H st' = S.H st /\
    exists st1 ns Err,
      lu_stage (Scalar.env Scalar.pole Scalar.pole 0) 0 st = inl st1 /\
      newton_run (Scalar.env Scalar.pole Scalar.pole 0) 0 st1 = NLeft ns /\
      (N.Theta ns <=? ThetaMin) = true /\
      geb (Hnew_accepted (Scalar.env Scalar.pole Scalar.pole 0) 1e-6 st ns Err / S.H st) Qmin
      = true.
Proof.
  eassert (A : after (Scalar.env Scalar.pole Scalar.pole 0) 1 1e-6 0
                 (init (Scalar.env Scalar.pole Scalar.pole 0) 0 [0]) = Some _)
    by (vm_compute; reflexivity).
  match type of A with
  | _ = Some ?s =>
    eassert (I : iteration (Scalar.env Scalar.pole Scalar.pole 0) 1e-6 0 s = Accepted _)
      by (vm_compute; reflexivity)
  end.
  match type of I with
  | iteration _ _ _ ?s = Accepted ?s' =>
    exists s, s'; split; [exact A|]; split; [exact I|]; split; [reflexivity|];
    split; [reflexivity|];
    destruct (proj2 (skip_lu_after_pass _ _ _ _ _) I)
      as (st1 & ns & Err & L & N & _ & K & _)
  end.
  exists st1, ns, Err. split; [exact L|]. split; [exact N|].
  cbv zeta in K.
  match type of K with
  | _ = (if ?c then _ else ?r) => destruct c eqn:C
  end.
  - exfalso. vm_compute in K. discriminate K.
  - simpl in K.
    destruct (N.Theta ns <=? ThetaMin); [|simpl in K; vm_compute in K; discriminate K].
    destruct (geb _ Qmin); [|simpl in K; vm_compute in K; discriminate K].
    split; reflexivity.
Defined.

(** C4: [y' = pole * y] from [y = [0]] on [[0, 1e-6]].  Pass 1 fails to
    factor at [h = 5e-7] and halves [h]; pass 2 factors at [h = 2.5e-7], is
    accepted and sets [SkipLU]; pass 3 reuses the factors, is accepted and
    takes [H = t_end - t = 5e-7] without clearing [SkipLU].  The fourth pass
    then begins with [SkipLU] set and factors that belong to [h = 2.5e-7],
    not to the current [h]. *)
Theorem stale_factors_reused :
  exists st,
    after (Scalar.env Scalar.pole Scalar.pole 0) 3 1e-6 0
      (init (Scalar.env Scalar.pole Scalar.pole 0) 0 [0]) = Some st /\
    (S.t st + Roundoff <? 1e-6) = true /\
    S.SkipLU st = true /\
    S.H st = 5e-7 /\
    S.E1 st = E1_of (RK_Decomp (Scalar.env Scalar.pole Scalar.pole 0)
                       (5e-7 * 0.5) (S.A st) (S.ipiv2 st)) /\
    ((S.E1 st).[0]
     =? (E1_of (RK_Decomp (Scalar.env Scalar.pole Scalar.pole 0)
                  (S.H st) (S.A st) (S.ipiv2 st))).[0]) = false.
Proof.
  eexists. split; [vm_compute; reflexivity|]. vm_compute. repeat split.
Qed.

(** ** The error norm *)

(** C5: with the word behind [sums] holding 4, [RK_ErrorNorm] on [N = 1],
    [sc = [1]], [v = [0]] returns 2, where the weighted RMS norm floored at
    1e-10 is 1e-10. *)
Theorem RK_ErrorNorm_adds_word_past_sums :
  RK_ErrorNorm (Scalar.env 0 0 4) [1] [0] = 2 /\
  spec_ErrorNorm 1 [1] [0] = 1e-10.
Proof. vm_compute. split; reflexivity. Qed.

Lemma bind_checked_Val {X Y : Type} (x : X) (k : X -> M checked Y) :
  bind checked (Val x) k = k x.
Proof. reflexivity. Qed.

Lemma for_checked_inv {S : Type} (P : S -> Prop) (idx : list nat)
    (body : nat -> S -> M checked S) :
  (forall i s, In i idx -> P s -> exists s', body i s = Val s' /\ P s') ->
  forall s, P s -> exists s', for_ checked idx body s = Val s' /\ P s'.
Proof.
  induction idx as [|i idx IH]; simpl; intros Hb s Hs.
  - eauto.
  - destruct (Hb i s (or_introl eq_refl) Hs) as (s1 & E1 & P1). rewrite E1.
    apply IH; auto.
Qed.

Lemma norm_term_checked (scale DY sums : vec) (k slot : nat) :
  (k < length scale)%nat -> (k < length DY)%nat -> (slot < length sums)%nat ->
  exists sums', norm_term checked scale DY k slot sums = Val sums' /\
                length sums' = length sums.
Proof.
  intros Hs Hd Hu. unfold norm_term. simpl.
  destruct (nth_error scale k) eqn:E1; [|apply nth_error_None in E1; lia].
  destruct (nth_error DY k) eqn:E2; [|apply nth_error_None in E2; lia].
  destruct (nth_error sums slot) eqn:E3; [|apply nth_error_None in E3; lia].
  apply Nat.ltb_lt in Hu. rewrite Hu. eexists. split; [reflexivity|].
  apply length_upd.
Qed.

Lemma strided_block (NN i : nat) :
  In i (strided (NN mod UNROLL) NN UNROLL) -> (i + UNROLL <= NN)%nat.
Proof.
  unfold strided, UNROLL. intros H. apply in_map_iff in H. destruct H as (b & <- & Hb).
  apply in_seq in Hb.
  pose proof (Nat.div_mod_eq NN 8) as D.
  replace (NN - NN mod 8 + 8 - 1)%nat with (NN / 8 * 8 + 7)%nat in Hb by lia.
  rewrite Nat.div_add_l in Hb by lia.
  change (7 / 8)%nat with 0%nat in Hb. lia.
Qed.

Lemma last_loop_checked (sums : vec) :
  length sums = UNROLL ->
  for_ checked (seq 0 (S UNROLL))
    (fun i sum => bind checked (load checked sums i) (fun x => ret checked (sum + x))) 0
  = OutOfBounds UNROLL UNROLL.
Proof.
  unfold UNROLL. intros H.
  do 9 (destruct sums as [|? sums]; try discriminate). reflexivity.
Qed.

(** C9: on arrays of [NN] elements the two accumulation loops stay inside
    [scale], [DY] and [sums], and the final loop then reads [sums[UNROLL]],
    one element past the array of [UNROLL = 8]. *)
Theorem RK_ErrorNorm_reads_past_sums (NN : nat) (scale DY : vec) :
  length scale = NN -> length DY = NN ->
  RK_ErrorNorm_in checked NN scale DY = OutOfBounds UNROLL UNROLL.
Proof.
  intros Hs Hd. unfold RK_ErrorNorm_in.
  assert (L1 : exists sums,
             (if (NN mod UNROLL =? 0)%nat then ret checked (repeat 0 UNROLL)
              else for_ checked (seq 0 (NN mod UNROLL))
                     (fun i => norm_term checked scale DY i i) (repeat 0 UNROLL))
             = Val sums /\ length sums = UNROLL).
  { destruct (NN mod UNROLL =? 0)%nat.
    - eexists. split; reflexivity.
    - apply (for_checked_inv (fun s => length s = UNROLL)); [|reflexivity].
      intros i s Hi Hl. apply in_seq in Hi.
      unfold UNROLL in *.
      assert (B : (NN mod 8 < 8)%nat) by (apply Nat.mod_upper_bound; lia).
      pose proof (Nat.Div0.mod_le NN 8) as B'.
      destruct (norm_term_checked scale DY s i i ltac:(lia) ltac:(lia) ltac:(lia))
        as (s' & E & L).
      exists s'. split; [exact E | lia]. }
  destruct L1 as (sums1 & E1 & Len1). rewrite E1, bind_checked_Val.
  assert (L2 : exists sums,
             for_ checked (strided (NN mod UNROLL) NN UNROLL)
               (fun i => for_ checked (seq 0 UNROLL)
                           (fun j => norm_term checked scale DY (i + j) j)) sums1
             = Val sums /\ length sums = UNROLL).
  { apply (for_checked_inv (fun s => length s = UNROLL)); [|exact Len1].
    intros i s Hi Hl. apply strided_block in Hi.
    apply (for_checked_inv (fun s => length s = UNROLL)); [|exact Hl].
    intros j s2 Hj Hl2. apply in_seq in Hj.
    unfold UNROLL in *.
    destruct (norm_term_checked scale DY s2 (i + j) j ltac:(lia) ltac:(lia) ltac:(lia))
      as (s' & E & L).
    exists s'. split; [exact E | lia]. }
  destruct L2 as (sums2 & E2 & Len2). rewrite E2, bind_checked_Val.
  now rewrite (last_loop_checked sums2 Len2).
Qed.

(** Ten elements: the remainder loop and one block of eight. *)
Lemma RK_ErrorNorm_reads_past_sums_witness :
  RK_ErrorNorm_in checked 10 (repeat 1 10) (repeat 2 10) = OutOfBounds UNROLL UNROLL.
Proof.
  apply RK_ErrorNorm_reads_past_sums; reflexivity.
Defined.

(** ** The warm start *)

(** C6: [RK_Interpolate] evaluates the first two stages from their own
    abscissae and the third with [x2] outside the bracket and [x3] inside;
    on [N = 1], [H = Hold = 1], [CONT = [0; 1; 0]] the third stage is
    [x2 = 1 + rkC[1]] where the symmetric formula gives [x3 = 2]. *)
Theorem RK_Interpolate_third_stage (e : env) (H Hold : float) (CONT : vec) :
  RK_Interpolate e H Hold CONT
  = (spec_Interpolate (NN e) H Hold CONT 0,
     spec_Interpolate (NN e) H Hold CONT 1,
     tabulate (NN e) (fun j =>
       CONT.[j] + (1.0 + rkC 1 * (H / Hold))
                  * (CONT.[NN e + j] + (1.0 + rkC 2 * (H / Hold)) * CONT.[NN e + NN e + j])))
  /\ snd (RK_Interpolate (Scalar.env 0 0 0) 1 1 [0; 1; 0]) = [1.0 + rkC 1]
  /\ spec_Interpolate 1 1 1 [0; 1; 0] 2 = [2]
  /\ (1.0 + rkC 1 =? 2) = false.
Proof. split; [reflexivity|]. vm_compute. repeat split. Qed.

(** ** Initialisation *)

(** C8 as stated fails: the first step size is not the option [h_init];
    the default options carry [h_init = 1e-6], [integrate] starts from
    [5e-7]. *)
Lemma initial_step_is_not_h_init :
  S.H (init (Scalar.env 0 0 0) 0 [1]) <> h_init default_SolverOptions.
Proof.
  intros H.
  assert (E : (S.H (init (Scalar.env 0 0 0) 0 [1]) =? h_init default_SolverOptions) = true).
  { rewrite H. reflexivity. }
  vm_compute in E. discriminate.
Qed.

(** C8, amended: the loop of [integrate] starts from [t = t_start] with the
    step size [5e-7] written in the source, [FirstStep] set and [Reject],
    [SkipJac], [SkipLU] clear. *)
Theorem integrate_initial_state (e : env) (fuel : nat) (t_start t_end pr : float) (y : vec) :
  integrate e fuel t_start t_end pr y = integrate_loop e fuel t_end pr (init e t_start y) /\
  S.t (init e t_start y) = t_start /\
  S.H (init e t_start y) = 5e-7 /\
  S.FirstStep (init e t_start y) = true /\
  S.Reject (init e t_start y) = false /\
  S.SkipJac (init e t_start y) = false /\
  S.SkipLU (init e t_start y) = false.
Proof. repeat split. Qed.

(** ** Termination *)

Section Termination.

Variable e : env.

Lemma lu_stage_counters (pr : float) (st : S.state) :
  counters_ok st ->
  match lu_stage e pr st with
  | inl st1 =>
      S.Nsteps st1 = S.Nsteps st /\ (0 <= S.Nconsecutive st1 <= S.Nconsecutive st)%Z
  | inr (Rejected st') =>
      S.Nsteps st' = S.Nsteps st /\ S.Nconsecutive st' = (S.Nconsecutive st + 1)%Z /\
      (S.Nconsecutive st' <= 4)%Z
  | inr (Accepted _) => False
  | inr _ => True
  end.
Proof.
  intros [Hc Hs]. unfold lu_stage.
  destruct (negb (S.SkipLU st)); [|simpl; lia].
  destruct (RK_Decomp e (S.H st) _ (S.ipiv2 st)) as [[[[E1 E2] p1] p2] info].
  destruct (negb (info =? 0)%Z); [|simpl; lia].
  destruct (S.Nconsecutive st + 1 >=? 5)%Z eqn:G; [exact I|]. simpl.
  rewrite Z.geb_leb in G. apply Z.leb_gt in G. lia.
Qed.

Lemma step_body_counters (t_end pr : float) (st : S.state) :
  match step_body e t_end pr st with
  | Accepted st' | Rejected st' =>
      S.Nsteps st' = (S.Nsteps st + 1)%Z /\ (S.Nsteps st' < Max_no_steps)%Z /\
      S.Nconsecutive st' = S.Nconsecutive st
  | _ => True
  end.
Proof.
  unfold step_body.
  destruct (S.Nsteps st + 1 >=? Max_no_steps)%Z eqn:G; [exact I|].
  rewrite Z.geb_leb in G. apply Z.leb_gt in G.
  destruct (_ <=? _); [exact I|].
  destruct (newton_run e pr st) as [ns| |c]; try exact I.
  destruct (N.NewtonDone ns); simpl; [|auto].
  destruct (RK_ErrorEstimate _ _ _ _ _ _ _ _ _ _ _ _ _ _) as [Err|c]; [|exact I].
  unfold accept_or_reject. destruct (Err <? 1.0).
  - match goal with |- context [reuse_decision ?a ?b ?c ?d ?f ?g] =>
      destruct (reuse_decision a b c d f g) end. simpl. auto.
  - simpl. auto.
Qed.

Lemma iteration_counters (t_end pr : float) (st : S.state) :
  counters_ok st ->
  match iteration e t_end pr st with
  | Accepted st' | Rejected st' =>
      counters_ok st' /\ (0 < passes_left st' < passes_left st)%Z
  | _ => True
  end.
Proof.
  intros Hok. unfold iteration.
  pose proof (lu_stage_counters pr st Hok) as L. destruct Hok as [Hc Hs].
  destruct (lu_stage e pr st) as [st1|[s|s|w y1|c]]; try exact I; try contradiction.
  - pose proof (step_body_counters t_end pr st1) as B.
    destruct L as (L1 & L2).
    destruct (step_body e t_end pr st1) as [s|s|w y1|c]; try exact I;
      destruct B as (B1 & B2 & B3); unfold counters_ok, passes_left; lia.
  - destruct L as (L1 & L2 & L3). unfold counters_ok, passes_left. lia.
Qed.

Lemma integrate_loop_fuel (t_end pr : float) (fuel : nat) :
  forall st,
    counters_ok st -> (passes_left st < Z.of_nat fuel)%Z ->
    integrate_loop e fuel t_end pr st <> OutOfFuel.
Proof.
  induction fuel as [|fuel IH]; intros st Hok Hf.
  - destruct Hok as [Hc Hs]. unfold passes_left in Hf. lia.
  - simpl. destruct (_ <? _); [|discriminate].
    pose proof (iteration_counters t_end pr st Hok) as C.
    destruct (iteration e t_end pr st) as [s|s|w y1|c]; try discriminate;
      destruct C as (Hok' & Hm); apply IH; auto; lia.
Qed.

(** The loop of [integrate] makes at most [5 * Max_no_steps] passes: with
    that much fuel every call ends, by a return or by [exit]. *)
Theorem integrate_terminates (fuel : nat) (t_start t_end pr : float) (y : vec) :
  (5 * Max_no_steps < Z.of_nat fuel)%Z ->
  integrate e fuel t_start t_end pr y <> OutOfFuel.
Proof.
  intros Hf. unfold integrate. apply integrate_loop_fuel.
  - unfold counters_ok, init, Max_no_steps. cbn [S.Nsteps S.Nconsecutive]. lia.
  - unfold passes_left, init, Max_no_steps in *. cbn [S.Nsteps S.Nconsecutive]. lia.
Qed.

End Termination.

(** [5 * Max_no_steps + 1] passes are enough on [y' = 0]. *)
Lemma integrate_terminates_witness :
  integrate (Scalar.env 0 0 0) (Z.to_nat 1000001) 0 1e-3 0 [1] <> OutOfFuel.
Proof.
  apply integrate_terminates. unfold Max_no_steps. lia.
Defined.

(** ** More on doubles *)

Lemma not_nan_spec (x : float) : is_nan x = false -> Prim2SF x <> S754_nan.
Proof.
  unfold is_nan. rewrite FloatAxioms.eqb_spec. unfold SFeqb.
  intros H E. rewrite E in H. discriminate.
Qed.

Lemma SFcompare_total (a b : spec_float) :
  a <> S754_nan -> b <> S754_nan -> exists c, SFcompare a b = Some c.
Proof.
  destruct a, b; simpl; intros Ha Hb; try congruence; eauto.
Qed.

Lemma ltb_leb (x y : float) : (x <? y) = true -> (x <=? y) = true.
Proof.
  rewrite FloatAxioms.ltb_spec, FloatAxioms.leb_spec. unfold SFltb, SFleb.
  destruct (SFcompare _ _) as [[| |]|]; congruence.
Qed.

(** Without NaNs the order is total. *)
Lemma nltb_leb (x y : float) :
  is_nan x = false -> is_nan y = false -> (x <? y) = false -> (y <=? x) = true.
Proof.
  intros Hx Hy. rewrite FloatAxioms.ltb_spec, FloatAxioms.leb_spec. unfold SFltb, SFleb.
  destruct (SFcompare_total _ _ (not_nan_spec _ Hx) (not_nan_spec _ Hy)) as [c E].
  rewrite E, (SFcompare_antisym _ _ _ E). destruct c; simpl; congruence.
Qed.

Lemma leb_refl (x : float) : is_nan x = false -> (x <=? x) = true.
Proof.
  intros Hx. apply nltb_leb; auto.
  rewrite FloatAxioms.ltb_spec. unfold SFltb.
  destruct (SFcompare (Prim2SF x) (Prim2SF x)) as [c|] eqn:E; [|reflexivity].
  pose proof (SFcompare_antisym _ _ _ E) as E'. rewrite E in E'.
  destruct c; try reflexivity; discriminate.
Qed.

Lemma leb_not_nan (x y : float) : (x <=? y) = true -> is_nan x = false /\ is_nan y = false.
Proof.
  rewrite FloatAxioms.leb_spec. unfold SFleb, is_nan. rewrite !FloatAxioms.eqb_spec.
  unfold SFeqb.
  destruct (Prim2SF x) as [s|s| |s m e], (Prim2SF y) as [s'|s'| |s' m' e']; simpl;
    try discriminate; intros _;
    rewrite ?Z.compare_refl, ?Pos.compare_cont_refl;
    try destruct s; try destruct s'; auto.
Qed.

(** [fmax] is at least each argument that is not a NaN. *)
Lemma fmax_ge_r (x c : float) : is_nan c = false -> (c <=? fmax x c) = true.
Proof.
  intros Hc. unfold fmax. destruct (is_nan x) eqn:Hx; [now apply leb_refl|].
  rewrite Hc. destruct (x <? c) eqn:L; [now apply leb_refl|]. now apply nltb_leb.
Qed.

Lemma fmax_ge_l (c x : float) : is_nan c = false -> (c <=? fmax c x) = true.
Proof.
  intros Hc. unfold fmax. rewrite Hc. destruct (is_nan x); [now apply leb_refl|].
  destruct (c <? x) eqn:L; [now apply ltb_leb | now apply leb_refl].
Qed.

Lemma fmax_same (x : float) : fmax x x = x.
Proof.
  unfold fmax. destruct (is_nan x); [reflexivity|]. now destruct (x <? x).
Qed.

(** [fmin(hi, fmax(lo, x))] lies in [[lo, hi]] for every [x], a NaN included. *)
Lemma clamp_bounds (lo hi x : float) :
  (lo <=? hi) = true ->
  (lo <=? fmin hi (fmax lo x)) = true /\ (fmin hi (fmax lo x) <=? hi) = true.
Proof.
  intros B. destruct (leb_not_nan _ _ B) as [Hlo Hhi].
  pose proof (fmax_ge_l lo x Hlo) as G.
  destruct (leb_not_nan _ _ G) as [_ Hm]. set (m := fmax lo x) in *.
  unfold fmin. rewrite Hhi, Hm. destruct (m <? hi) eqn:L.
  - split; [exact G | now apply ltb_leb].
  - split; [exact B | now apply leb_refl].
Qed.

(** ** Scaling and the norm *)

(** The scale vector does not depend on the order of the two states, so
    the call [scale(y, y0, sc)] of line 675 to [scale(y0, y, sc)] is
    harmless; on equal states it is [scale_init]. *)
Theorem scale_symmetric (e : env) (a b : vec) :
  scale e a b = scale e b a /\ scale e a a = scale_init e a.
Proof.
  unfold scale, scale_init, tabulate. split; apply map_ext; intros i.
  - now rewrite fmax_fabs_comm.
  - now rewrite fmax_same.
Qed.

Lemma norm_at_least_floor (e : env) (scale DY : vec) :
  (1e-10 <=? RK_ErrorNorm e scale DY) = true.
Proof.
  unfold RK_ErrorNorm, RK_ErrorNorm_in. cbn [bind ret flat]. now apply fmax_ge_r.
Qed.

(** Whatever the arrays and the word behind [sums] hold, the norm is a
    number, and not below 1e-10. *)
Theorem RK_ErrorNorm_floor (e : env) (scale DY : vec) :
  (1e-10 <=? RK_ErrorNorm e scale DY) = true /\ is_nan (RK_ErrorNorm e scale DY) = false.
Proof.
  assert (G : (1e-10 <=? RK_ErrorNorm e scale DY) = true).
  { unfold RK_ErrorNorm, RK_ErrorNorm_in. cbn [bind ret flat]. now apply fmax_ge_r. }
  split; [exact G | exact (proj2 (leb_not_nan _ _ G))].
Qed.

(** ** The partial sums of [RK_ErrorNorm] *)

Lemma get_upd (a : vec) (i j : nat) (v : float) :
  (upd a i v).[j] = if (i =? j)%nat && (i <? length a)%nat then v else a.[j].
Proof.
  unfold get. revert i j. induction a as [|x a IH]; intros i j.
  - destruct i, j; simpl; try reflexivity; now rewrite andb_false_r.
  - destruct i, j; try reflexivity. exact (IH i j).
Qed.

Lemma norm_term_flat (w : float) (scale DY sums : vec) (k slot : nat) :
  (k < length scale)%nat -> (k < length DY)%nat -> (slot < length sums)%nat ->
  norm_term (flat w) scale DY k slot sums
  = upd sums slot (sums.[slot] + norm_sq scale DY k).
Proof.
  intros Hs Hd Hu. unfold norm_term, norm_sq, get. cbn [bind load store flat].
  now rewrite (nth_indep scale w 0 Hs), (nth_indep DY w 0 Hd), (nth_indep sums w 0 Hu).
Qed.

(** A loop that adds [g i] into slot [i] for distinct in-range [i]. *)
Lemma for_flat_each (w : float) (g : nat -> float) (body : nat -> vec -> vec) (l : list nat) :
  forall s : vec,
    NoDup l ->
    (forall i, In i l -> (i < length s)%nat) ->
    (forall i s', In i l -> length s' = length s -> body i s' = upd s' i (s'.[i] + g i)) ->
    length (for_ (flat w) l body s) = length s /\
    forall j, (for_ (flat w) l body s).[j]
              = if in_dec Nat.eq_dec j l then s.[j] + g j else s.[j].
Proof.
  induction l as [|i l IH]; intros s Hnd Hin Hb; simpl.
  - split; [reflexivity | intros j; reflexivity].
  - cbn [bind flat]. inversion Hnd as [|? ? Hni Hnd']; subst.
    rewrite (Hb i s (or_introl eq_refl) eq_refl).
    destruct (IH (upd s i (s.[i] + g i)) Hnd') as [L V].
    + intros k Hk. rewrite length_upd. apply Hin. now right.
    + intros k s' Hk Hl. apply Hb; [now right|]. now rewrite Hl, length_upd.
    + split; [now rewrite L, length_upd|]. intros j. rewrite V, get_upd.
      assert (Hi : (i <? length s)%nat = true) by (apply Nat.ltb_lt, Hin; now left).
      rewrite Hi, andb_true_r.
      destruct (Nat.eq_dec i j) as [->|Hne].
      * rewrite Nat.eqb_refl. destruct (in_dec Nat.eq_dec j l); [contradiction|]. reflexivity.
      * rewrite (proj2 (Nat.eqb_neq i j) Hne).
        destruct (in_dec Nat.eq_dec j l); reflexivity.
Qed.

Lemma blocks_flat (w : float) (scale DY : vec) (start : nat) (bl : list nat) :
  forall s : vec,
    length s = UNROLL ->
    (forall b j, In b bl -> (j < UNROLL)%nat ->
       (start + b * UNROLL + j < length scale)%nat /\
       (start + b * UNROLL + j < length DY)%nat) ->
    length (blocks_run w scale DY start bl s) = UNROLL /\
    forall j, (j < UNROLL)%nat ->
      (blocks_run w scale DY start bl s).[j]
      = fold_left (fun a b => a + norm_sq scale DY (start + b * UNROLL + j)) bl s.[j].
Proof.
  unfold blocks_run.
  induction bl as [|b bl IH]; intros s Hl Hin; cbn [map for_ fold_left bind ret flat].
  - split; [exact Hl | reflexivity].
  - destruct (for_flat_each w (fun j => norm_sq scale DY (start + b * UNROLL + j))
                (fun j => norm_term (flat w) scale DY (start + b * UNROLL + j) j)
                (seq 0 UNROLL) s (seq_NoDup _ _)) as [L V].
    + intros i Hi. apply in_seq in Hi. rewrite Hl. lia.
    + intros i s' Hi Hl'. apply in_seq in Hi.
      destruct (Hin b i (or_introl eq_refl)) as [? ?]; [lia|].
      apply norm_term_flat; auto. rewrite Hl', Hl. lia.
    + destruct (IH _ (eq_trans L Hl)) as [L' V'].
      * intros b' j Hb' Hj. apply Hin; [now right | exact Hj].
      * split; [exact L'|]. intros j Hj. rewrite (V' j Hj), V.
        destruct (in_dec Nat.eq_dec j (seq 0 UNROLL)) as [_|Hn]; [reflexivity|].
        exfalso. apply Hn, in_seq. lia.
Qed.

Lemma fold_left_map_idx {X Y : Type} (f : float -> Y -> float) (h : X -> Y) (l : list X) :
  forall a, fold_left f (map h l) a = fold_left (fun a x => f a (h x)) l a.
Proof. induction l as [|x l IH]; simpl; intros a; [reflexivity | apply IH]. Qed.

Lemma fold_left_ext_seq (f g : float -> nat -> float) (l : list nat) :
  (forall a i, In i l -> f a i = g a i) ->
  forall a, fold_left f l a = fold_left g l a.
Proof.
  induction l as [|x l IH]; simpl; intros H a; [reflexivity|].
  rewrite (H a x (or_introl eq_refl)). apply IH. intros; apply H; now right.
Qed.

Lemma last_loop_flat (w : float) (sums : vec) :
  length sums = UNROLL ->
  for_ (flat w) (seq 0 (S UNROLL)) (fun i sum => sum + load (flat w) sums i) 0
  = fold_left (fun a j => a + sums.[j]) (seq 0 UNROLL) 0 + w.
Proof.
  unfold UNROLL. intros H.
  do 9 (destruct sums as [|? sums]; try discriminate). reflexivity.
Qed.

Lemma div_blocks (NN : nat) : ((NN - NN mod UNROLL + UNROLL - 1) / UNROLL = NN / UNROLL)%nat.
Proof.
  unfold UNROLL. pose proof (Nat.div_mod_eq NN 8) as D.
  replace (NN - NN mod 8 + 8 - 1)%nat with (NN / 8 * 8 + 7)%nat by lia.
  rewrite Nat.div_add_l by lia. change (7 / 8)%nat with 0%nat. lia.
Qed.

(** The sum of [RK_ErrorNorm] on arrays of [NN] elements, slot by slot. *)
Lemma RK_ErrorNorm_sum (w : float) (NN : nat) (scale DY : vec) :
  length scale = NN -> length DY = NN ->
  RK_ErrorNorm_in (flat w) NN scale DY
  = fmax (sqrt ((fold_left (fun a j => a + slot_sum NN scale DY j) (seq 0 UNROLL) 0 + w)
                / of_int (Z.of_nat NN))) 1e-10.
Proof.
  intros Hs Hd. unfold RK_ErrorNorm_in. cbn [bind ret flat]. do 3 f_equal.
  assert (B : (NN mod UNROLL < UNROLL)%nat) by (apply Nat.mod_upper_bound; discriminate).
  pose proof (Nat.Div0.mod_le NN UNROLL) as B'.
  pose proof (Nat.div_mod_eq NN UNROLL) as D.
  match goal with
  | |- for_ _ _ (fun i sum => sum + load _ (for_ _ _ _ ?S1) i) _ = _ => set (s1 := S1)
  end.
  assert (P1 : length s1 = UNROLL /\
               forall j, (j < UNROLL)%nat ->
                 s1.[j] = if (j <? NN mod UNROLL)%nat then 0 + norm_sq scale DY j else 0).
  { assert (Z0 : forall j, (repeat 0 UNROLL).[j] = 0).
    { intros j. unfold get, UNROLL. do 9 (destruct j as [|j]; [reflexivity|]).
      simpl. now destruct j. }
    unfold s1. destruct (NN mod UNROLL =? 0)%nat eqn:E0.
    - apply Nat.eqb_eq in E0. split; [apply repeat_length|].
      intros j Hj. rewrite E0. cbn [Nat.ltb Nat.leb]. apply Z0.
    - destruct (for_flat_each w (norm_sq scale DY)
                  (fun i => norm_term (flat w) scale DY i i)
                  (seq 0 (NN mod UNROLL)) (repeat 0 UNROLL) (seq_NoDup _ _)) as [L V].
      + intros i Hi. apply in_seq in Hi. rewrite repeat_length. lia.
      + intros i s' Hi Hl. apply in_seq in Hi. rewrite repeat_length in Hl.
        apply norm_term_flat; lia.
      + split; [now rewrite L, repeat_length|]. intros j Hj. rewrite V, Z0.
        destruct (in_dec Nat.eq_dec j (seq 0 (NN mod UNROLL))) as [Hi|Hn];
          destruct (j <? NN mod UNROLL)%nat eqn:Lt; try reflexivity.
        * apply in_seq in Hi. apply Nat.ltb_ge in Lt. lia.
        * exfalso. apply Hn, in_seq. apply Nat.ltb_lt in Lt. lia. }
  destruct P1 as [L1 V1].
  unfold strided. rewrite div_blocks.
  destruct (blocks_flat w scale DY (NN mod UNROLL) (seq 0 (NN / UNROLL)) s1 L1) as [L2 V2].
  { intros b j Hb Hj. apply in_seq in Hb. unfold UNROLL in *. lia. }
  unfold blocks_run in L2, V2.
  rewrite (last_loop_flat w _ L2). f_equal.
  apply fold_left_ext_seq. intros a j Hj. apply in_seq in Hj. f_equal.
  rewrite (V2 j) by lia. rewrite (V1 j) by lia.
  unfold slot_sum, slot_indices. rewrite fold_left_app, fold_left_map_idx.
  destruct (j <? NN mod UNROLL)%nat; reflexivity.
Qed.


(** Every component is added into exactly one slot, exactly once. *)
Lemma slot_indices_perm (NN : nat) :
  Permutation (concat (map (slot_indices NN) (seq 0 UNROLL))) (seq 0 NN).
Proof.
  apply Permutation_sym, NoDup_Permutation_bis.
  - apply seq_NoDup.
  - assert (B : (NN mod UNROLL < UNROLL)%nat) by (apply Nat.mod_upper_bound; discriminate).
    pose proof (Nat.div_mod_eq NN UNROLL) as D.
    rewrite length_seq. unfold slot_indices.
    remember (NN mod UNROLL)%nat as r. remember (NN / UNROLL)%nat as q. clear Heqr Heqq.
    unfold UNROLL in *. cbn [seq map concat].
    repeat rewrite length_app. repeat rewrite length_map. repeat rewrite length_seq.
    destruct r as [|[|[|[|[|[|[|[|k]]]]]]]]; cbn [Nat.ltb Nat.leb length]; lia.
  - intros x Hx. apply in_seq in Hx. apply in_concat.
    assert (B : (NN mod UNROLL < UNROLL)%nat) by (apply Nat.mod_upper_bound; discriminate).
    pose proof (Nat.div_mod_eq NN UNROLL) as D.
    destruct (Nat.lt_ge_cases x (NN mod UNROLL)) as [Hlt|Hge].
    + exists (slot_indices NN x). split.
      * apply in_map, in_seq. lia.
      * unfold slot_indices. apply in_or_app. left.
        apply Nat.ltb_lt in Hlt. rewrite Hlt. now left.
    + exists (slot_indices NN ((x - NN mod UNROLL) mod UNROLL)).
      assert (Bj : ((x - NN mod UNROLL) mod UNROLL < UNROLL)%nat)
        by (apply Nat.mod_upper_bound; discriminate).
      pose proof (Nat.div_mod_eq (x - NN mod UNROLL) UNROLL) as Dx.
      split.
      * apply in_map, in_seq. lia.
      * unfold slot_indices. apply in_or_app. right. apply in_map_iff.
        exists ((x - NN mod UNROLL) / UNROLL)%nat. split; [lia|].
        apply in_seq. unfold UNROLL in *. lia.
Qed.

(** The value of [RK_ErrorNorm] on arrays of [NN] elements: slot [j] of
    [sums] collects the terms of [slot_indices NN j] in that order, the
    eight slots are added from 0 up, and then the word [w] behind [sums] is
    added before the mean, the root and the floor are taken; and the slots
    together hold every component exactly once. *)
Theorem RK_ErrorNorm_value (w : float) (NN : nat) (scale DY : vec) :
  length scale = NN -> length DY = NN ->
  RK_ErrorNorm_in (flat w) NN scale DY
  = fmax (sqrt ((fold_left (fun a j => a + slot_sum NN scale DY j) (seq 0 UNROLL) 0 + w)
                / of_int (Z.of_nat NN))) 1e-10 /\
  Permutation (concat (map (slot_indices NN) (seq 0 UNROLL))) (seq 0 NN).
Proof.
  intros Hs Hd. split; [now apply RK_ErrorNorm_sum | apply slot_indices_perm].
Qed.

(** Ten components: two in the remainder loop, one block of eight. *)
Lemma RK_ErrorNorm_value_witness :
  RK_ErrorNorm_in (flat 3) 10 (repeat 1 10) (repeat 2 10)
  = fmax (sqrt ((fold_left (fun a j => a + slot_sum 10 (repeat 1 10) (repeat 2 10) j)
                   (seq 0 UNROLL) 0 + 3) / of_int 10)) 1e-10.
Proof.
  exact (proj1 (RK_ErrorNorm_value 3 10 (repeat 1 10) (repeat 2 10) eq_refl eq_refl)).
Defined.

(** ** What a pass leaves alone *)

Section PassFacts.

Variable e : env.

Ltac split_if H :=
  repeat match type of H with
  | context [let '(_, _) := ?x in _] => destruct x eqn:?
  | context [if ?c then _ else _] => destruct c eqn:?
  end.

Lemma lu_stage_frame (pr : float) (st st1 : S.state) :
  lu_stage e pr st = inl st1 ->
  S.Hold st1 = S.Hold st /\ S.Hacc st1 = S.Hacc st /\ S.ErrOld st1 = S.ErrOld st /\
  S.SkipJac st1 = S.SkipJac st /\ S.CONT st1 = S.CONT st /\
  S.NewtonRate st1 = S.NewtonRate st /\
  (S.SkipLU st = true ->
   S.A st1 = S.A st /\ S.E1 st1 = S.E1 st /\ S.E2 st1 = S.E2 st /\
   S.ipiv1 st1 = S.ipiv1 st /\ S.ipiv2 st1 = S.ipiv2 st) /\
  (S.SkipLU st = false ->
   S.A st1 = (if S.SkipJac st then S.A st else eval_jacob e (S.t st) pr (S.y st)) /\
   S.E1 st1 = E1_of (RK_Decomp e (S.H st) (S.A st1) (S.ipiv2 st)) /\ S.info st1 = 0%Z) /\
  S.F0 st1 = (if S.Reject st then S.F0 st else dydt e (S.t st) pr (S.y st)).
Proof.
  unfold lu_stage. intros H.
  destruct (S.SkipLU st) eqn:K; simpl in H.
  - inversion H; subst; simpl. repeat split; try discriminate; destruct (S.Reject st); auto.
  - destruct (S.SkipJac st) eqn:J; simpl in H;
      match type of H with
      | context [RK_Decomp ?a ?b ?c ?d] =>
          destruct (RK_Decomp a b c d) as [[[[E1 E2] p1] p2] info] eqn:R
      end;
      destruct (info =? 0)%Z eqn:I; simpl in H;
      try (destruct (_ >=? 5)%Z; discriminate);
      inversion H; subst; simpl; rewrite ?R; simpl;
      apply Z.eqb_eq in I;
      repeat split; try discriminate; auto; destruct (S.Reject st); auto.
Qed.

Lemma lu_stage_retry (pr : float) (st st' : S.state) :
  lu_stage e pr st = inr (Rejected st') ->
  S.t st' = S.t st /\ S.y st' = S.y st /\ S.y0 st' = S.y0 st /\ S.sc st' = S.sc st /\
  S.Hold st' = S.Hold st /\ S.Hacc st' = S.Hacc st /\ S.ErrOld st' = S.ErrOld st /\
  S.FirstStep st' = S.FirstStep st /\ S.CONT st' = S.CONT st /\
  S.Reject st' = true /\ S.SkipJac st' = true /\ S.SkipLU st' = false /\
  S.H st' = S.H st * 0.5.
Proof.
  unfold lu_stage. intros H. split_if H; inversion H; subst; simpl; repeat split.
Qed.

(** The factorisation stage leaves the pass only when this pass's own
    call of [RK_Decomp] reports [info != 0]. *)
Lemma lu_stage_inr_cause (pr : float) (st : S.state) (s : step) :
  lu_stage e pr st = inr s ->
  S.SkipLU st = false /\
  snd (RK_Decomp e (S.H st)
         (if negb (S.SkipJac st) then eval_jacob e (S.t st) pr (S.y st) else S.A st)
         (S.ipiv2 st)) <> 0%Z /\
  ((5 <= S.Nconsecutive st + 1)%Z /\ s = Returned LU_failed (upd (S.y st) 0 logf_neg1) \/
   (S.Nconsecutive st + 1 < 5)%Z /\
   exists st', s = Rejected st' /\ S.Nconsecutive st' = (S.Nconsecutive st + 1)%Z /\
               S.H st' = S.H st * 0.5).
Proof.
  unfold lu_stage. intros H.
  destruct (S.SkipLU st); simpl in H; [discriminate|]. split; [reflexivity|].
  match type of H with
  | context [RK_Decomp ?a ?b ?c ?d] =>
      destruct (RK_Decomp a b c d) as [[[[E1 E2] p1] p2] info] eqn:R
  end.
  cbn [snd]. destruct (info =? 0)%Z eqn:I; simpl in H; [discriminate|].
  apply Z.eqb_neq in I. split; [exact I|].
  destruct (S.Nconsecutive st + 1 >=? 5)%Z eqn:G; rewrite Z.geb_leb in G.
  - apply Z.leb_le in G. left. split; [exact G|]. now inversion H.
  - apply Z.leb_gt in G. right. split; [exact G|]. eexists. split; [now inversion H|].
    simpl. auto.
Qed.

Lemma lu_stage_returns (pr : float) (st : S.state) :
  S.SkipLU st = false ->
  snd (RK_Decomp e (S.H st)
         (if negb (S.SkipJac st) then eval_jacob e (S.t st) pr (S.y st) else S.A st)
         (S.ipiv2 st)) <> 0%Z ->
  (5 <= S.Nconsecutive st + 1)%Z ->
  lu_stage e pr st = inr (Returned LU_failed (upd (S.y st) 0 logf_neg1)).
Proof.
  intros Sk I G. unfold lu_stage. rewrite Sk. cbn [negb].
  destruct (RK_Decomp _ _ _ _) as [[[[E1 E2] p1] p2] info]. cbn [snd] in I.
  apply Z.eqb_neq in I. rewrite I. cbn [negb].
  apply Z.leb_le in G. rewrite <- Z.geb_leb in G. now rewrite G.
Qed.

Lemma step_body_rejected_frame (t_end pr : float) (st st' : S.state) :
  step_body e t_end pr st = Rejected st' ->
  S.t st' = S.t st /\ S.y st' = S.y st /\ S.y0 st' = S.y0 st /\ S.sc st' = S.sc st /\
  S.Hold st' = S.Hold st /\ S.Hacc st' = S.Hacc st /\ S.ErrOld st' = S.ErrOld st /\
  S.FirstStep st' = S.FirstStep st /\ S.CONT st' = S.CONT st /\
  S.Reject st' = true /\ S.SkipJac st' = true /\ S.SkipLU st' = false /\
  ((exists ns, newton_run e pr st = NLeft ns /\ N.NewtonDone ns = false /\
               S.H st' = N.Fac ns * S.H st) \/
   (exists ns Err,
      newton_run e pr st = NLeft ns /\ N.NewtonDone ns = true /\
      RK_ErrorEstimate e (S.H st) (S.t st) pr (S.y st) (S.F0 st)
        (N.Z1 ns) (N.Z2 ns) (N.Z3 ns) (S.sc st) (S.E1 st) (S.ipiv1 st)
        (S.FirstStep st) (S.Reject st) = Ok Err /\
      (Err <? 1.0) = false /\
      let Fac :=
        fmin FacMax
          (fmax FacMin
             (pow e Err (-1.0 / rkELO) * (1.0 + of_int (2 * Z.of_nat NewtonMaxit))
              / of_int (N.NewtonIter ns + 1 + 2 * Z.of_nat NewtonMaxit))) in
      (FacMin <=? Fac) = true /\ (Fac <=? FacMax) = true /\
      S.H st' = (if S.FirstStep st || S.Reject st then FacRej * S.H st
                 else Fac * S.H st))).
Proof.
  unfold step_body. intros H.
  destruct (_ >=? _)%Z; [discriminate|].
  destruct (_ <=? _); [discriminate|].
  destruct (newton_run e pr st) as [ns| |c]; try discriminate.
  destruct (N.NewtonDone ns) eqn:D; simpl in H.
  - destruct (RK_ErrorEstimate _ _ _ _ _ _ _ _ _ _ _ _ _ _) as [Err|c] eqn:E; [|discriminate].
    unfold accept_or_reject in H. destruct (Err <? 1.0) eqn:T.
    + match type of H with
      | context [reuse_decision ?a ?b ?c ?d ?f ?g] => destruct (reuse_decision a b c d f g)
      end. discriminate.
    + inversion H; subst; simpl. repeat split. right.
      exists ns, Err. split; [reflexivity|]. split; [exact D|]. split; [exact E|].
      split; [exact T|]. cbv zeta.
      split; [|split; [|reflexivity]]; apply clamp_bounds; reflexivity.
  - inversion H; subst; simpl. repeat split. left. exists ns. auto.
Qed.

Lemma iteration_rejected_frame (t_end pr : float) (st st' : S.state) :
  iteration e t_end pr st = Rejected st' ->
  S.t st' = S.t st /\ S.y st' = S.y st /\ S.y0 st' = S.y0 st /\ S.sc st' = S.sc st /\
  S.Hold st' = S.Hold st /\ S.Hacc st' = S.Hacc st /\ S.ErrOld st' = S.ErrOld st /\
  S.FirstStep st' = S.FirstStep st /\ S.CONT st' = S.CONT st /\
  S.Reject st' = true /\ S.SkipJac st' = true /\ S.SkipLU st' = false.
Proof.
  unfold iteration. intros H.
  destruct (lu_stage e pr st) as [st1|s] eqn:L.
  - destruct (lu_stage_inl _ _ _ _ L) as (Ht & HH & Hy & Hy0 & Hsc & HR & HF & _).
    destruct (lu_stage_frame _ _ _ L) as (F1 & F2 & F3 & _ & F5 & _).
    destruct (step_body_rejected_frame _ _ _ _ H)
      as (B1 & B2 & B3 & B4 & B5 & B6 & B7 & B8 & B9 & B10 & B11 & B12 & _).
    repeat split; congruence.
  - subst s.
    destruct (lu_stage_retry _ _ _ L)
      as (B1 & B2 & B3 & B4 & B5 & B6 & B7 & B8 & B9 & B10 & B11 & B12 & _).
    repeat split; auto.
Qed.

(** A rejected pass changes neither the time, the solution and its copy,
    the scale vector, the interpolant nor the step-size memory of the
    controller; it raises [Reject] and [SkipJac] and clears [SkipLU]; and
    it is rejected for one of three causes, each with its own new step
    size: this pass's own factorisation reported [info != 0] for fewer
    than the fifth time in a row, and [H] is halved; or the Newton loop was
    left without [NewtonDone], and [H] is multiplied by the loop's [Fac];
    or the error estimate of the converged Newton loop is not below 1, and
    [H] is multiplied by [FacRej] on a first or repeated attempt and
    otherwise by the factor of lines 650-651, which lies in
    [[FacMin, FacMax]] whatever [pow] returns. *)
Theorem rejected_pass_effects (t_end pr : float) (st st' : S.state) :
  iteration e t_end pr st = Rejected st' ->
  (S.t st' = S.t st /\ S.y st' = S.y st /\ S.y0 st' = S.y0 st /\ S.sc st' = S.sc st /\
   S.Hold st' = S.Hold st /\ S.Hacc st' = S.Hacc st /\ S.ErrOld st' = S.ErrOld st /\
   S.FirstStep st' = S.FirstStep st /\ S.CONT st' = S.CONT st) /\
  (S.Reject st' = true /\ S.SkipJac st' = true /\ S.SkipLU st' = false) /\
  ((S.SkipLU st = false /\
    snd (RK_Decomp e (S.H st)
           (if negb (S.SkipJac st) then eval_jacob e (S.t st) pr (S.y st) else S.A st)
           (S.ipiv2 st)) <> 0%Z /\
    (S.Nconsecutive st + 1 < 5)%Z /\
    S.Nconsecutive st' = (S.Nconsecutive st + 1)%Z /\
    S.H st' = S.H st * 0.5) \/
   (exists st1 ns,
      lu_stage e pr st = inl st1 /\ newton_run e pr st1 = NLeft ns /\
      N.NewtonDone ns = false /\ S.H st' = N.Fac ns * S.H st) \/
   (exists st1 ns Err,
      lu_stage e pr st = inl st1 /\ newton_run e pr st1 = NLeft ns /\
      N.NewtonDone ns = true /\
      RK_ErrorEstimate e (S.H st1) (S.t st1) pr (S.y st1) (S.F0 st1)
        (N.Z1 ns) (N.Z2 ns) (N.Z3 ns) (S.sc st1) (S.E1 st1) (S.ipiv1 st1)
        (S.FirstStep st1) (S.Reject st1) = Ok Err /\
      (Err <? 1.0) = false /\
      let Fac :=
        fmin FacMax
          (fmax FacMin
             (pow e Err (-1.0 / rkELO) * (1.0 + of_int (2 * Z.of_nat NewtonMaxit))
              / of_int (N.NewtonIter ns + 1 + 2 * Z.of_nat NewtonMaxit))) in
      (FacMin <=? Fac) = true /\ (Fac <=? FacMax) = true /\
      S.H st' = (if S.FirstStep st || S.Reject st then FacRej * S.H st
                 else Fac * S.H st))).
Proof.
  unfold iteration. intros H.
  destruct (lu_stage e pr st) as [st1|s] eqn:L.
  - destruct (lu_stage_inl _ _ _ _ L) as (Ht & HH & Hy & Hy0 & Hsc & HR & HF & _).
    destruct (lu_stage_frame _ _ _ L) as (F1 & F2 & F3 & _ & F5 & _).
    destruct (step_body_rejected_frame _ _ _ _ H)
      as (B1 & B2 & B3 & B4 & B5 & B6 & B7 & B8 & B9 & B10 & B11 & B12 & B13).
    split; [repeat split; congruence|]. split; [auto|].
    right.
    destruct B13 as [(ns & N1 & N2 & N3)|(ns & Err & N1 & N2 & N3 & N4 & N5)].
    + left. exists st1, ns. rewrite HH in N3. auto.
    + right. exists st1, ns, Err. cbv zeta in N5 |- *. rewrite HH, HR, HF in N5.
      destruct N5 as (K1 & K2 & K3). repeat split; assumption.
  - subst s.
    destruct (lu_stage_retry _ _ _ L)
      as (B1 & B2 & B3 & B4 & B5 & B6 & B7 & B8 & B9 & B10 & B11 & B12 & B13).
    destruct (lu_stage_inr_cause _ _ _ L) as (Sk & I & [(_ & K)|(G & st2 & K & Nc & _)]);
      [discriminate|]. injection K as <-.
    split; [repeat split; auto|]. split; [auto|]. left. auto.
Qed.

End PassFacts.

(** The first pass on [y' = 1e8 * y] with a zero Jacobian hook is rejected. *)
Lemma rejected_pass_effects_witness :
  exists st',
    iteration (Scalar.env 1e8 0 0) 1 0 (init (Scalar.env 1e8 0 0) 0 [1]) = Rejected st' /\
    S.t st' = 0 /\ S.y st' = [1] /\ S.SkipLU st' = false.
Proof.
  eassert (I : iteration (Scalar.env 1e8 0 0) 1 0 (init (Scalar.env 1e8 0 0) 0 [1])
               = Rejected _)
    by (vm_compute; reflexivity).
  eexists. split; [exact I|].
  destruct (rejected_pass_effects _ _ _ _ _ I) as ((Ht & Hy & _) & (_ & _ & Hs) & _).
  split; [exact Ht|]. split; [exact Hy | exact Hs].
Defined.

(** ** Invariants of the loop *)

Section LoopFacts.

Variable e : env.

Lemma length_RK_Make_Interpolate (Z1 Z2 Z3 : vec) :
  length (RK_Make_Interpolate e Z1 Z2 Z3) = (3 * NN e)%nat.
Proof.
  unfold RK_Make_Interpolate. rewrite !length_app, !length_tabulate. lia.
Qed.

Lemma accept_or_reject_memory (t_end : float) (st st' : S.state) (Nsteps : Z)
    (ns : N.state) (Err : float) :
  accept_or_reject e t_end st Nsteps ns Err = Accepted st' ->
  S.Hacc st' = S.H st /\ S.Hold st' = S.H st /\ S.ErrOld st' = fmax 1e-2 Err /\
  S.FirstStep st' = false /\ S.Reject st' = false /\
  S.CONT st' = RK_Make_Interpolate e (N.Z1 ns) (N.Z2 ns) (N.Z3 ns) /\
  S.ipiv1 st' = S.ipiv1 st /\ S.ipiv2 st' = S.ipiv2 st.
Proof.
  unfold accept_or_reject. intros H.
  destruct (Err <? 1.0); [|discriminate].
  match type of H with (let '(_, _) := ?x in _) = _ => destruct x end.
  inversion H; subst; simpl. repeat split.
Qed.

Lemma iteration_accepted_memory (t_end pr : float) (st st' : S.state) :
  iteration e t_end pr st = Accepted st' ->
  S.FirstStep st' = false /\ S.Reject st' = false /\
  (1e-2 <=? S.ErrOld st') = true /\ S.Hacc st' = S.Hold st' /\ S.Hold st' = S.H st /\
  length (S.CONT st') = (3 * NN e)%nat /\
  length (S.y st') = NN e /\ length (S.sc st') = NN e.
Proof.
  unfold iteration. intros H.
  destruct (lu_stage e pr st) as [st1|s] eqn:L.
  - destruct (lu_stage_inl _ _ _ _ L) as (_ & HH & _).
    destruct (step_body_accepted _ _ _ _ _ H) as (ns & Err & _ & _ & _ & Ha).
    destruct (accept_or_reject_memory _ _ _ _ _ _ Ha) as (M1 & M2 & M3 & M4 & M5 & M6 & _).
    destruct (accept_or_reject_accepted _ _ _ _ _ _ _ Ha) as (_ & _ & Hy & _ & Hsc & _).
    repeat split; auto.
    + rewrite M3. now apply fmax_ge_l.
    + congruence.
    + congruence.
    + rewrite M6. apply length_RK_Make_Interpolate.
    + rewrite Hy. apply length_tabulate.
    + rewrite Hsc. unfold scale. apply length_tabulate.
  - subst s. destruct (lu_stage_inr _ _ _ _ L) as [?|(st2 & Hs & _)]; discriminate.
Qed.

Lemma loop_inv_init (t_start : float) (y : vec) : loop_inv e t_start y (init e t_start y).
Proof.
  unfold loop_inv, counters_ok, init, Max_no_steps. simpl.
  repeat split; try discriminate; try lia.
Qed.

Lemma loop_inv_step (t_start t_end pr : float) (y : vec) (st st' : S.state) :
  loop_inv e t_start y st ->
  iteration e t_end pr st = Accepted st' \/ iteration e t_end pr st = Rejected st' ->
  loop_inv e t_start y st'.
Proof.
  intros (I1 & I2 & I3 & I4 & I5 & I6) H.
  pose proof (iteration_counters e t_end pr st I2) as C.
  destruct H as [H|H]; rewrite H in C; destruct C as (C & _).
  - destruct (iteration_accepted _ _ _ _ _ H) as (A1 & _).
    destruct (iteration_accepted_memory _ _ _ _ H)
      as (M1 & M2 & M3 & M4 & _ & M6 & M7 & M8).
    unfold loop_inv. split; [exact A1|]. split; [exact C|].
    repeat split; auto; congruence.
  - destruct (iteration_rejected_frame _ _ _ _ _ H)
      as (F1 & F2 & F3 & F4 & F5 & F6 & F7 & F8 & F9 & R1 & R2 & R3).
    unfold loop_inv. rewrite F1, F2, F3, F4, F5, F6, F7, F8, F9.
    split; [exact I1|]. split; [exact C|].
    repeat split; auto; try congruence;
      try (apply I5; assumption); try (apply I6; assumption).
Qed.

Lemma after_loop_inv (t_start t_end pr : float) (y : vec) (n : nat) :
  forall st0 st, loop_inv e t_start y st0 -> after e n t_end pr st0 = Some st ->
                 loop_inv e t_start y st.
Proof.
  induction n as [|n IH]; simpl; intros st0 st I H.
  - now inversion H; subst.
  - destruct (_ <? _); [|discriminate].
    destruct (iteration e t_end pr st0) as [s|s| |] eqn:It; try discriminate;
      apply (IH s); auto; eapply loop_inv_step; eauto.
Qed.

(** At the head of every pass: [y0] copies [y]; the counters are in range;
    a raised [Reject] comes with [SkipJac] raised and [SkipLU] clear;
    [SkipLU] is only raised once a step has been accepted; while
    [FirstStep] is set, [t], [y] and [sc] are still the initial ones; and
    once it is clear, [ErrOld >= 1e-2] (so the Gustafsson ratio never
    divides by zero or a NaN), [Hacc = Hold], and [CONT], [y] and [sc] have
    their full lengths. *)
Theorem loop_head_invariant (t_start t_end pr : float) (y : vec) (st : S.state) :
  reachable e t_start t_end pr y st -> loop_inv e t_start y st.
Proof.
  intros [n H]. eapply after_loop_inv; [apply loop_inv_init | exact H].
Qed.

(** ** How [integrate] ends *)

Lemma after_snoc (t_end pr : float) (n : nat) :
  forall st0 st st',
    after e n t_end pr st0 = Some st ->
    (S.t st + Roundoff <? t_end) = true ->
    iteration e t_end pr st = Accepted st' \/ iteration e t_end pr st = Rejected st' ->
    after e (S n) t_end pr st0 = Some st'.
Proof.
  induction n as [|n IH]; intros st0 st st' H C I.
  - inversion H; subst. simpl. rewrite C. destruct I as [-> | ->]; reflexivity.
  - simpl in H. remember (S n) as m. simpl.
    destruct (S.t st0 + Roundoff <? t_end); [|discriminate].
    destruct (iteration e t_end pr st0) as [s|s| |]; try discriminate;
      subst m; eapply IH; eauto.
Qed.

Lemma integrate_loop_finished (t_end pr : float) (y' : vec) (fuel : nat) :
  forall st,
    integrate_loop e fuel t_end pr st = Finished y' ->
    (exists n st', after e n t_end pr st = Some st' /\
                   (S.t st' + Roundoff <? t_end) = false /\ y' = S.y st') /\
    y' = last_accepted e fuel t_end pr st (S.y st).
Proof.
  induction fuel as [|fuel IH]; simpl; intros st H.
  - destruct (_ <? _) eqn:C; [discriminate|]. inversion H; subst.
    split; [|reflexivity]. exists 0%nat, st. auto.
  - destruct (_ <? _) eqn:C.
    + destruct (iteration e t_end pr st) as [s|s|w y1|c] eqn:I; try discriminate.
      * destruct (IH _ H) as ((n & st' & A & C' & E) & L). split; [|exact L].
        exists (S n), st'. simpl. rewrite C, I. auto.
      * destruct (IH _ H) as ((n & st' & A & C' & E) & L).
        destruct (iteration_rejected _ _ _ _ _ I) as (Hy & _). rewrite Hy in L.
        split; [|exact L]. exists (S n), st'. simpl. rewrite C, I. auto.
    + inversion H; subst. split; [|reflexivity]. exists 0%nat, st. auto.
Qed.

(** A call that returns normally hands back the [y] of a state the loop
    reached and at which [t + Roundoff < t_end] fails, which is the [y] of
    the last accepted pass; in particular a call whose interval is empty
    ([t_start + Roundoff < t_end] fails, as for [t_end <= t_start] or a NaN)
    hands back [y] untouched, whatever the fuel. *)
Theorem integrate_finished (fuel : nat) (t_start t_end pr : float) (y y' : vec) :
  (integrate e fuel t_start t_end pr y = Finished y' ->
   (exists st, reachable e t_start t_end pr y st /\
               (S.t st + Roundoff <? t_end) = false /\ y' = S.y st) /\
   y' = last_accepted e fuel t_end pr (init e t_start y) y) /\
  ((t_start + Roundoff <? t_end) = false ->
   integrate e fuel t_start t_end pr y = Finished y).
Proof.
  split.
  - unfold integrate. intros H.
    destruct (integrate_loop_finished _ _ _ _ _ H) as ((n & st & A & C & E) & L).
    split; [|exact L]. exists st. split; [exists n; exact A | auto].
  - intros C. unfold integrate. destruct fuel; simpl; rewrite C; reflexivity.
Qed.

(** ** Exit statuses and the causes of the early returns *)

Lemma RK_Solve_exit (H : float) (E1 : vec) (E2 : cvec) (R1 R2 R3 : vec)
    (ipiv1 ipiv2 : list Z) (c : Z) :
  RK_Solve e H E1 E2 R1 R2 R3 ipiv1 ipiv2 = Exit c -> c = (-1)%Z.
Proof.
  unfold RK_Solve. intros K.
  repeat match type of K with
  | context [let '(_, _) := ?x in _] => destruct x
  | context [if ?c then _ else _] => destruct c
  end; now inversion K.
Qed.

Lemma RK_ErrorEstimate_exit (H t pr : float) (Y F0 Z1 Z2 Z3 sc E1 : vec)
    (ipiv1 : list Z) (fs rj : bool) (c : Z) :
  RK_ErrorEstimate e H t pr Y F0 Z1 Z2 Z3 sc E1 ipiv1 fs rj = Exit c -> c = (-1)%Z.
Proof.
  unfold RK_ErrorEstimate. intros K.
  repeat match type of K with
  | context [let '(_, _) := ?x in _] => destruct x
  | context [if ?c then _ else _] => destruct c
  end; now inversion K.
Qed.

Lemma newton_body_exit (pr : float) (st : S.state) (ns : N.state) (c : Z) :
  newton_body e pr st ns = NExit c -> c = (-1)%Z.
Proof.
  unfold newton_body, newton_increment. intros K.
  match type of K with
  | context [RK_PrepareRHS ?a ?b ?c ?d ?f ?g ?h ?i ?j] =>
      destruct (RK_PrepareRHS a b c d f g h i j) as [[DZ1 DZ2] DZ3]
  end.
  destruct (RK_Solve _ _ _ _ _ _ _ _ _) as [[[D1 D2] D3]|c'] eqn:S.
  - repeat match type of K with
    | (if ?c then _ else _) = _ => destruct c
    end; try discriminate;
    match type of K with
    | newton_update e ?n ?a ?b ?c ?d = _ =>
        pose proof (newton_update_cases e n a b c d) as U; rewrite K in U; contradiction
    end.
  - inversion K; subst. eapply RK_Solve_exit; eauto.
Qed.

Lemma newton_for_exit (pr : float) (st : S.state) (n : nat) :
  forall ns c, newton_for e pr st n ns = NExited c -> c = (-1)%Z.
Proof.
  induction n as [|n IH]; simpl; intros ns c K; [discriminate|].
  destruct (newton_body e pr st ns) as [ns1|ns1| |c'] eqn:B; try discriminate.
  - eapply IH; eauto.
  - inversion K; subst. eapply newton_body_exit; eauto.
Qed.

Lemma iteration_exit (t_end pr : float) (st : S.state) (c : Z) :
  iteration e t_end pr st = Exited c -> c = (-1)%Z.
Proof.
  unfold iteration. intros K.
  destruct (lu_stage e pr st) as [st1|s] eqn:L.
  - unfold step_body in K.
    destruct (_ >=? _)%Z; [now inversion K|].
    destruct (_ <=? _); [now inversion K|].
    destruct (newton_run e pr st1) as [ns| |c'] eqn:R; try discriminate.
    + destruct (N.NewtonDone ns); simpl in K; [|discriminate].
      destruct (RK_ErrorEstimate _ _ _ _ _ _ _ _ _ _ _ _ _ _) as [Err|c'] eqn:E.
      * destruct (accept_or_reject_continues e t_end st1 (S.Nsteps st1 + 1) ns Err)
          as [[s Hs]|[s Hs]]; rewrite Hs in K; discriminate.
      * inversion K; subst. eapply RK_ErrorEstimate_exit; eauto.
    + inversion K; subst. eapply newton_for_exit; eauto.
  - subst s. destruct (lu_stage_inr _ _ _ _ L) as [?|(st2 & Hs & _)]; discriminate.
Qed.

(** Whenever a call ends the process, the exit status is -1: the step
    limit, the step-size underflow and a failed back-substitution cannot be
    told apart by the status. *)
Theorem integrate_exit_status (fuel : nat) (t_start t_end pr : float) (y : vec) (c : Z) :
  integrate e fuel t_start t_end pr y = ProcessExit c -> c = (-1)%Z.
Proof.
  unfold integrate. generalize (init e t_start y).
  induction fuel as [|fuel IH]; simpl; intros st K.
  - destruct (_ <? _); discriminate.
  - destruct (_ <? _); [|discriminate].
    destruct (iteration e t_end pr st) as [s|s|w y1|c'] eqn:I; try discriminate.
    + eapply IH; eauto.
    + eapply IH; eauto.
    + inversion K; subst. eapply iteration_exit; eauto.
Qed.

Lemma newton_for_returned (pr : float) (st : S.state) (n : nat) :
  forall ns0,
    newton_for e pr st n ns0 = NReturned ->
    exists k ns, newton_at e pr st k ns0 = Some ns /\ newton_body e pr st ns = NReturn.
Proof.
  induction n as [|n IH]; simpl; intros ns0 K; [discriminate|].
  destruct (newton_body e pr st ns0) as [ns1|ns1| |c'] eqn:B; try discriminate.
  - destruct (IH _ K) as (k & ns & A & R). exists (S k), ns. simpl. rewrite B. auto.
  - exists 0%nat, ns0. auto.
Qed.

Lemma newton_body_return (pr : float) (st : S.state) (ns : N.state) :
  newton_body e pr st ns = NReturn -> N.NewtonIter ns = (Z.of_nat NewtonMaxit - 1)%Z.
Proof.
  unfold newton_body. intros H.
  destruct (newton_increment e pr st ns) as [[[[NI DZ1] DZ2] DZ3]|c]; [|discriminate].
  repeat match type of H with
  | (if ?c then _ else _) = _ => destruct c
  end; try discriminate;
  match type of H with
  | newton_update e ?n ?a ?b ?c ?d = _ =>
      pose proof (newton_update_cases e n a b c d) as U; rewrite H in U;
      destruct U as (_ & ?); simpl in *; auto
  end.
Qed.

Lemma newton_body_return_cause (pr : float) (st : S.state) (ns : N.state) :
  newton_body e pr st ns = NReturn ->
  (0 < N.NewtonIter ns)%Z ->
  exists NI DZ1 DZ2 DZ3,
    newton_increment e pr st ns = Ok (NI, DZ1, DZ2, DZ3) /\
    (NI / N.NewtonIncrementOld ns <? 0.99) = true /\
    (NI / N.NewtonIncrementOld ns / (1.0 - NI / N.NewtonIncrementOld ns) * NI
     <=? NewtonTol) = false.
Proof.
  unfold newton_body. intros H Hk.
  destruct (newton_increment e pr st ns) as [[[[NI DZ1] DZ2] DZ3]|c]; [|discriminate].
  apply Z.ltb_lt in Hk. rewrite Hk in H.
  exists NI, DZ1, DZ2, DZ3. split; [reflexivity|].
  destruct (NI / N.NewtonIncrementOld ns <? 0.99); [|discriminate].
  split; [reflexivity|].
  repeat match type of H with
  | (if ?c then _ else _) = _ => destruct c
  end; try discriminate;
  match type of H with
  | newton_update e ?n ?a ?b ?c ?d = _ =>
      pose proof (newton_update_cases e n a b c d) as U; rewrite H in U;
      destruct U as (U & _); exact U
  end.
Qed.

(** The return of line 481 happens exactly in a pass that enters with
    [SkipLU] clear, whose own call of [RK_Decomp] (on the fresh Jacobian,
    or on the stored one when [SkipJac] is set) reports [info != 0], and
    that had already counted four failures in a row; the return of line 564
    happens after the factorisation stage when the Newton loop reaches its
    last pass, index [NewtonMaxit - 1], with [Theta < 0.99] and the test
    [NewtonRate * NewtonIncrement <= NewtonTol] failing.  Both hand back
    [y] with [logf(-1)] in component 0. *)
Theorem early_return_causes (t_end pr : float) (st : S.state) (y' : vec) :
  (iteration e t_end pr st = Returned LU_failed y' <->
   S.SkipLU st = false /\
   snd (RK_Decomp e (S.H st)
          (if negb (S.SkipJac st) then eval_jacob e (S.t st) pr (S.y st) else S.A st)
          (S.ipiv2 st)) <> 0%Z /\
   (4 <= S.Nconsecutive st)%Z /\
   y' = upd (S.y st) 0 logf_neg1) /\
  (iteration e t_end pr st = Returned Newton_unconverged y' ->
   y' = upd (S.y st) 0 logf_neg1 /\
   exists st1 ns NI DZ1 DZ2 DZ3,
     lu_stage e pr st = inl st1 /\
     newton_at e pr st1 (NewtonMaxit - 1) (newton_start e st1) = Some ns /\
     newton_body e pr st1 ns = NReturn /\
     newton_increment e pr st1 ns = Ok (NI, DZ1, DZ2, DZ3) /\
     (NI / N.NewtonIncrementOld ns <? 0.99) = true /\
     (NI / N.NewtonIncrementOld ns / (1.0 - NI / N.NewtonIncrementOld ns) * NI
      <=? NewtonTol) = false).
Proof.
  split; [split|]; unfold iteration.
  - intros H. destruct (lu_stage e pr st) as [st1|s] eqn:L.
    + apply step_body_returned in H. destruct H; discriminate.
    + subst s.
      destruct (lu_stage_inr_cause _ _ _ _ L) as (Sk & I & [(G & K)|(_ & st2 & K & _)]);
        [|discriminate].
      injection K as <-. repeat split; auto. lia.
  - intros (Sk & I & G & ->). rewrite (lu_stage_returns _ _ _ Sk I); [reflexivity | lia].
  - intros H. destruct (lu_stage e pr st) as [st1|s] eqn:L.
    + destruct (lu_stage_inl _ _ _ _ L) as (_ & _ & Hy & _).
      destruct (step_body_returned _ _ _ _ _ _ H) as (_ & ->). rewrite Hy.
      split; [reflexivity|].
      unfold step_body in H.
      destruct (_ >=? _)%Z; [discriminate|].
      destruct (_ <=? _); [discriminate|].
      destruct (newton_run e pr st1) as [ns| |c'] eqn:R; try discriminate.
      * destruct (N.NewtonDone ns); simpl in H; [|discriminate].
        destruct (RK_ErrorEstimate _ _ _ _ _ _ _ _ _ _ _ _ _ _) as [Err|c']; [|discriminate].
        destruct (accept_or_reject_continues e t_end st1 (S.Nsteps st1 + 1) ns Err)
          as [[s Hs]|[s Hs]]; rewrite Hs in H; discriminate.
      * destruct (newton_for_returned _ _ _ _ R) as (k & ns & A & B).
        destruct (newton_at_start _ _ _ _ _ A) as (Hi & _).
        pose proof (newton_body_return _ _ _ B) as Hlast.
        destruct (newton_body_return_cause _ _ _ B) as (NI & DZ1 & DZ2 & DZ3 & Hinc & HT & HN);
          [rewrite Hlast; unfold NewtonMaxit; lia|].
        exists st1, ns, NI, DZ1, DZ2, DZ3. split; [reflexivity|].
        rewrite Hlast in Hi.
        replace (NewtonMaxit - 1)%nat with k by (unfold NewtonMaxit in *; lia). auto.
    + subst s. destruct (lu_stage_inr _ _ _ _ L) as [E|(st2 & Hs & _)]; discriminate.
Qed.

End LoopFacts.

(** The first pass on [y' = 0] is accepted; the state it leaves obeys the
    invariant. *)
Lemma loop_head_invariant_witness :
  exists st,
    after (Scalar.env 0 0 0) 1 1e-3 0 (init (Scalar.env 0 0 0) 0 [1]) = Some st /\
    loop_inv (Scalar.env 0 0 0) 0 [1] st.
Proof.
  eassert (A : after (Scalar.env 0 0 0) 1 1e-3 0 (init (Scalar.env 0 0 0) 0 [1]) = Some _)
    by (vm_compute; reflexivity).
  eexists. split; [exact A|].
  apply (loop_head_invariant (Scalar.env 0 0 0) 0 1e-3 0 [1]). exists 1%nat. exact A.
Defined.

(** [y' = -y] on [[0, 1]] returns normally. *)
Lemma integrate_finished_witness :
  exists y',
    integrate (Scalar.env (-1) (-1) 0) 100 0 1 0 [1] = Finished y' /\
    y' = last_accepted (Scalar.env (-1) (-1) 0) 100 1 0
           (init (Scalar.env (-1) (-1) 0) 0 [1]) [1].
Proof.
  eassert (F : integrate (Scalar.env (-1) (-1) 0) 100 0 1 0 [1] = Finished _)
    by (vm_compute; reflexivity).
  eexists. split; [exact F|].
  exact (proj2 (proj1 (integrate_finished _ _ _ _ _ _ _) F)).
Defined.

(** The step-size underflow of the run at [t = 1e9]. *)
Lemma integrate_exit_status_witness :
  exists c, integrate (Scalar.env 0 0 0) 1 1e9 2e9 0 [1] = ProcessExit c /\ c = (-1)%Z.
Proof.
  eassert (X : integrate (Scalar.env 0 0 0) 1 1e9 2e9 0 [1] = ProcessExit _)
    by (vm_compute; reflexivity).
  eexists. split; [exact X|]. exact (integrate_exit_status _ _ _ _ _ _ _ X).
Defined.

(** The fifth failed factorisation of the planar problem. *)
Lemma early_return_causes_witness :
  exists st y',
    after (Planar.env [1e30; 1e30; 1e30; 1e30] 0) 4 1 0
      (init (Planar.env [1e30; 1e30; 1e30; 1e30] 0) 0 [3; -3]) = Some st /\
    iteration (Planar.env [1e30; 1e30; 1e30; 1e30] 0) 1 0 st = Returned LU_failed y' /\
    (4 <= S.Nconsecutive st)%Z.
Proof.
  eassert (A : after (Planar.env [1e30; 1e30; 1e30; 1e30] 0) 4 1 0
                 (init (Planar.env [1e30; 1e30; 1e30; 1e30] 0) 0 [3; -3]) = Some _)
    by (vm_compute; reflexivity).
  match type of A with
  | _ = Some ?s =>
    eassert (I : iteration (Planar.env [1e30; 1e30; 1e30; 1e30] 0) 1 0 s
                 = Returned LU_failed _)
      by (vm_compute; reflexivity)
  end.
  do 2 eexists. split; [exact A|]. split; [exact I|].
  exact (proj1 (proj2 (proj2 (proj1 (proj1 (early_return_causes _ _ _ _ _)) I)))).
Defined.

(** ** NaN and the error norm *)

Lemma is_nan_of_SF (x : float) : Prim2SF x = S754_nan -> is_nan x = true.
Proof.
  intros H. unfold is_nan. rewrite FloatAxioms.eqb_spec, H. reflexivity.
Qed.

Lemma add_nan (x y : float) : is_nan x = true \/ is_nan y = true -> is_nan (x + y) = true.
Proof.
  intros H. apply is_nan_of_SF. rewrite FloatAxioms.add_spec.
  destruct H as [H|H]; apply is_nan_spec in H; rewrite H;
    [reflexivity | now destruct (Prim2SF x)].
Qed.

Lemma mul_nan (x y : float) : is_nan x = true \/ is_nan y = true -> is_nan (x * y) = true.
Proof.
  intros H. apply is_nan_of_SF. rewrite FloatAxioms.mul_spec.
  destruct H as [H|H]; apply is_nan_spec in H; rewrite H;
    [reflexivity | now destruct (Prim2SF x)].
Qed.

Lemma div_nan_l (x y : float) : is_nan x = true -> is_nan (x / y) = true.
Proof.
  intros H. apply is_nan_of_SF. rewrite FloatAxioms.div_spec.
  apply is_nan_spec in H. rewrite H. reflexivity.
Qed.

Lemma sqrt_nan (x : float) : is_nan x = true -> is_nan (sqrt x) = true.
Proof.
  intros H. apply is_nan_of_SF. rewrite FloatAxioms.sqrt_spec.
  apply is_nan_spec in H. rewrite H. reflexivity.
Qed.

Lemma fold_add_nan (f : nat -> float) (l : list nat) :
  forall a,
    is_nan a = true \/ (exists i, In i l /\ is_nan (f i) = true) ->
    is_nan (fold_left (fun a i => a + f i) l a) = true.
Proof.
  induction l as [|x l IH]; simpl; intros a H.
  - destruct H as [H|(i & [] & _)]. exact H.
  - apply IH. destruct H as [H|(i & [<-|Hi] & Hn)].
    + left. apply add_nan. now left.
    + left. apply add_nan. now right.
    + right. eauto.
Qed.

Lemma norm_sq_nan (scale DY : vec) (i : nat) :
  is_nan DY.[i] = true -> is_nan (norm_sq scale DY i) = true.
Proof.
  intros H. unfold norm_sq. apply mul_nan. now right.
Qed.

Lemma RK_ErrorNorm_nan (w : float) (NN : nat) (scale DY : vec) (i : nat) :
  length scale = NN -> length DY = NN -> (i < NN)%nat -> is_nan DY.[i] = true ->
  RK_ErrorNorm_in (flat w) NN scale DY = 1e-10.
Proof.
  intros Hs Hd Hi Hn. rewrite (RK_ErrorNorm_sum w NN scale DY Hs Hd).
  assert (In i (concat (map (slot_indices NN) (seq 0 UNROLL)))) as Hin.
  { eapply Permutation_in; [apply Permutation_sym, slot_indices_perm|].
    apply in_seq. lia. }
  apply in_concat in Hin. destruct Hin as (l & Hl & Hil).
  apply in_map_iff in Hl. destruct Hl as (j & <- & Hj).
  assert (N : is_nan (sqrt ((fold_left (fun a j => a + slot_sum NN scale DY j)
                               (seq 0 UNROLL) 0 + w) / of_int (Z.of_nat NN))) = true).
  { apply sqrt_nan, div_nan_l, add_nan. left. apply fold_add_nan. right.
    exists j. split; [exact Hj|]. unfold slot_sum. apply fold_add_nan. right.
    exists i. split; [exact Hil | now apply norm_sq_nan]. }
  unfold fmax. now rewrite N.
Qed.

(** A NaN in any component of [DY] does not make the norm a NaN: the sum
    is a NaN, [fmax] drops it, and the norm is the floor [1e-10], the
    smallest value it ever takes. *)
Theorem RK_ErrorNorm_hides_nan (w : float) (NN : nat) (scale DY : vec) (i : nat) :
  length scale = NN -> length DY = NN -> (i < NN)%nat -> is_nan DY.[i] = true ->
  RK_ErrorNorm_in (flat w) NN scale DY = 1e-10.
Proof. apply RK_ErrorNorm_nan. Qed.

Lemma RK_ErrorNorm_hides_nan_witness :
  RK_ErrorNorm_in (flat 0) 3 [1; 1; 1] [5; nan; 7] = 1e-10.
Proof.
  apply (RK_ErrorNorm_hides_nan 0 3 [1; 1; 1] [5; nan; 7] 1);
    [reflexivity | reflexivity | lia | reflexivity].
Defined.

(** The error estimate is a number, not below [1e-10]; and when the solve
    of line 394 hands back a vector with a NaN in it, the estimate is
    [1e-10]: the second solve is not made and the step passes the test
    [Err < 1.0] of line 653. *)
Theorem RK_ErrorEstimate_blind_to_nan (e : env) (H t pr : float)
    (Y F0 Z1 Z2 Z3 sc E1 : vec) (ipiv1 : list Z) (FirstStep Reject : bool) :
  (forall Err,
     RK_ErrorEstimate e H t pr Y F0 Z1 Z2 Z3 sc E1 ipiv1 FirstStep Reject = Ok Err ->
     (1e-10 <=? Err) = true) /\
  (forall TMP i,
     dgetrs_ e (NN e) E1 ipiv1
       (tabulate (NN e) (fun i =>
          rkE 0 * F0.[i]
          + (tabulate (NN e) (fun i =>
               rkE 1 / H * Z1.[i] + rkE 2 / H * Z2.[i] + rkE 3 / H * Z3.[i])).[i]))
     = (TMP, 0%Z) ->
     length sc = NN e -> length TMP = NN e -> (i < NN e)%nat -> is_nan TMP.[i] = true ->
     RK_ErrorEstimate e H t pr Y F0 Z1 Z2 Z3 sc E1 ipiv1 FirstStep Reject = Ok 1e-10 /\
     (1e-10 <? 1.0) = true).
Proof.
  split.
  - unfold RK_ErrorEstimate. intros Err K.
    repeat match type of K with
    | context [let '(_, _) := ?x in _] => destruct x
    | context [if ?c then _ else _] => destruct c
    end; inversion K; subst; apply norm_at_least_floor.
  - intros TMP i D Hs Hl Hi Hn. split; [|reflexivity].
    unfold RK_ErrorEstimate. rewrite D. cbn [Z.eqb negb].
    unfold RK_ErrorNorm. rewrite (RK_ErrorNorm_nan _ _ _ _ i Hs Hl Hi Hn).
    reflexivity.
Qed.

(** A singular [E1 = [0]] with a zero right-hand side: the solve returns
    [0 / 0]. *)
Lemma RK_ErrorEstimate_blind_to_nan_witness :
  RK_ErrorEstimate (Scalar.env 0 0 0) 1 0 0 [1] [0] [0] [0] [0] [1] [0] [1%Z] true false
  = Ok 1e-10.
Proof.
  eassert (D : dgetrs_ (Scalar.env 0 0 0) (NN (Scalar.env 0 0 0)) [0] [1%Z]
                 (tabulate (NN (Scalar.env 0 0 0)) (fun i =>
                    rkE 0 * [0].[i]
                    + (tabulate (NN (Scalar.env 0 0 0)) (fun i =>
                         rkE 1 / 1 * [0].[i] + rkE 2 / 1 * [0].[i] + rkE 3 / 1 * [0].[i])).[i]))
               = (_, 0%Z)) by (vm_compute; reflexivity).
  exact (proj1 (proj2 (RK_ErrorEstimate_blind_to_nan (Scalar.env 0 0 0) 1 0 0
                         [1] [0] [0] [0] [0] [1] [0] [1%Z] true false)
                  _ 0%nat D eq_refl eq_refl (le_n 1) eq_refl)).
Defined.

(** ** Factors that match the step size *)

Section FactorFacts.

Variable e : env.

Lemma lu_stage_factors (pr : float) (st st1 : S.state) :
  lu_stage e pr st = inl st1 ->
  (S.SkipLU st = true -> factors_current e st) ->
  factors_current e st1.
Proof.
  unfold lu_stage. intros H K.
  destruct (S.SkipLU st) eqn:Sk; simpl in H.
  - inversion H; subst. destruct (K eq_refl) as [p Hp]. exists p. exact Hp.
  - match type of H with
    | context [RK_Decomp ?a ?b ?c ?d] =>
        destruct (RK_Decomp a b c d) as [[[[E1 E2] p1] p2] info] eqn:R
    end.
    destruct (info =? 0)%Z eqn:I; simpl in H; [|destruct (_ >=? 5)%Z; discriminate].
    apply Z.eqb_eq in I. inversion H; subst. exists (S.ipiv2 st). simpl. exact R.
Qed.

Lemma accept_or_reject_factors (t_end : float) (st st' : S.state) (Nsteps : Z)
    (ns : N.state) (Err : float) :
  accept_or_reject e t_end st Nsteps ns Err = Accepted st' ->
  factors_current e st -> S.H st' = S.H st -> factors_current e st'.
Proof.
  intros Ha [p Hp] HH.
  destruct (accept_or_reject_accepted _ _ _ _ _ _ _ Ha) as (_ & _ & _ & _ & _ & _ & _ & A1 & A2 & A3).
  destruct (accept_or_reject_memory _ _ _ _ _ _ _ Ha) as (_ & _ & _ & _ & _ & _ & P1 & P2).
  exists p. rewrite HH, A1, A2, A3, P1, P2. exact Hp.
Qed.

(** If reused factors are always the ones of the current step size and
    Jacobian when a pass begins, they are so again when the next pass
    begins, except after a pass that was entered with [SkipLU] set and
    took [H = t_end - t] at line 683. *)
Theorem factors_stay_current (t_end pr : float) (st st' : S.state) :
  (S.SkipLU st = true -> factors_current e st) ->
  iteration e t_end pr st = Accepted st' \/ iteration e t_end pr st = Rejected st' ->
  (S.SkipLU st' = true -> factors_current e st') \/
  (S.SkipLU st = true /\ S.SkipLU st' = true /\ S.H st' = t_end - S.t st').
Proof.
  intros K [H|H].
  - unfold iteration in H.
    destruct (lu_stage e pr st) as [st1|s] eqn:L.
    + destruct (lu_stage_inl _ _ _ _ L) as (_ & HH & _ & _ & _ & _ & _ & HS & _).
      pose proof (lu_stage_factors _ _ _ L K) as F1.
      destruct (step_body_accepted _ _ _ _ _ H) as (ns & Err & _ & _ & _ & Ha).
      destruct (accept_or_reject_SkipLU _ _ _ _ _ _ _ Ha) as (Hnew & R).
      destruct (S.SkipLU st') eqn:S'; [|left; discriminate].
      destruct (reuse_decision_cases _ _ _ _ _ _ _ R) as [(A & B)|(A & _)].
      * right. rewrite <- HS. auto.
      * left. intros _. eapply accept_or_reject_factors; eauto.
    + subst s. destruct (lu_stage_inr _ _ _ _ L) as [?|(st2 & Hs2 & _)]; discriminate.
  - left. intros S'. destruct (iteration_rejected _ _ _ _ _ H) as (_ & _ & F). congruence.
Qed.

End FactorFacts.

(** The second pass on [y' = pole * y] factors anew, is accepted and keeps
    its factors for the third. *)
Lemma factors_stay_current_witness :
  exists st st',
    after (Scalar.env Scalar.pole Scalar.pole 0) 1 1e-6 0
      (init (Scalar.env Scalar.pole Scalar.pole 0) 0 [0]) = Some st /\
    iteration (Scalar.env Scalar.pole Scalar.pole 0) 1e-6 0 st = Accepted st' /\
    S.SkipLU st' = true /\ factors_current (Scalar.env Scalar.pole Scalar.pole 0) st'.
Proof.
  eassert (A : after (Scalar.env Scalar.pole Scalar.pole 0) 1 1e-6 0
                 (init (Scalar.env Scalar.pole Scalar.pole 0) 0 [0]) = Some _)
    by (vm_compute; reflexivity).
  match type of A with
  | _ = Some ?s =>
    eassert (I : iteration (Scalar.env Scalar.pole Scalar.pole 0) 1e-6 0 s = Accepted _)
      by (vm_compute; reflexivity)
  end.
  match type of I with
  | iteration _ _ _ ?s = Accepted ?s' =>
    exists s, s'; split; [exact A|]; split; [exact I|]; split; [reflexivity|];
    destruct (factors_stay_current _ 1e-6 0 s s'
                (fun K : S.SkipLU s = true => False_ind _ (Bool.diff_false_true K))
                (or_introl I)) as [F|[F _]];
      [exact (F eq_refl) | discriminate F]
  end.
Defined.

(** ** The helpers of the OpenCL integrator *)

(** [isPower2] holds exactly of the powers of two, 1 included; 0 and the
    negative numbers are refused. *)
Theorem isPower2_spec (x : Z) :
  isPower2 x = true <-> exists k, (0 <= k)%Z /\ x = (2 ^ k)%Z.
Proof.
  unfold isPower2. rewrite andb_true_iff, Z.ltb_lt, Z.eqb_eq. split.
  - intros [Hx Hl]. exists (Z.log2 x). split; [apply Z.log2_nonneg|].
    destruct (Z.log2_spec x Hx) as [Lo Hi].
    destruct (Z.eq_dec x (2 ^ Z.log2 x)) as [E|N]; [exact E|exfalso].
    assert (L1 : Z.log2 (x - 1) = Z.log2 x).
    { apply Z.log2_unique; [apply Z.log2_nonneg | lia]. }
    assert (P : (0 < x - 1)%Z).
    { pose proof (Z.pow_pos_nonneg 2 (Z.log2 x) ltac:(lia) (Z.log2_nonneg x)). lia. }
    pose proof (Z.bit_log2 x Hx) as B1.
    pose proof (Z.bit_log2 (x - 1) P) as B2. rewrite L1 in B2.
    assert (B : Z.testbit (Z.land x (x - 1)) (Z.log2 x) = true)
      by (rewrite Z.land_spec, B1, B2; reflexivity).
    rewrite Hl, Z.bits_0 in B. discriminate.
  - intros (k & Hk & ->). split; [apply Z.pow_pos_nonneg; lia|].
    rewrite Z.sub_1_r, <- Z.ones_equiv, Z.land_ones by exact Hk.
    apply Z.mod_same. pose proof (Z.pow_pos_nonneg 2 k ltac:(lia) Hk). lia.
Qed.

Lemma isPower2_spec_witness : isPower2 1024 = true.
Proof. apply (proj2 (isPower2_spec 1024)). exists 10%Z. split; [lia | reflexivity]. Defined.

Lemma upd_app (T0 T1 : vec) (x v : float) :
  upd (T0 ++ x :: T1) (length T0) v = T0 ++ v :: T1.
Proof. induction T0 as [|a T0 IH]; simpl; [reflexivity | now rewrite IH]. Qed.

Lemma int_wrap_small (z : Z) : (- 2 ^ 31 <= z < 2 ^ 31)%Z -> int_wrap z = z.
Proof. intros H. unfold int_wrap. rewrite Z.mod_small; lia. Qed.

Lemma size_wrap_small (z : Z) : (0 <= z < 2 ^ 64)%Z -> size_wrap z = z.
Proof. intros H. unfold size_wrap. now rewrite Z.mod_small. Qed.

Lemma block_doubles_small (NUM _neq : Z) :
  (0 <= NUM * _neq < 2 ^ 31 - 1)%Z -> block_doubles NUM _neq = Z.to_nat (NUM * _neq).
Proof.
  intros H. unfold block_doubles.
  rewrite int_wrap_small by lia. rewrite size_wrap_small by lia.
  now rewrite Z.div_mul by lia.
Qed.

Lemma offset_small (NUM _neq : Z) (index : nat) :
  (0 <= NUM)%Z -> (0 <= _neq)%Z -> (Z.of_nat index * (NUM * _neq) < 2 ^ 64)%Z ->
  Z.to_nat (size_wrap (size_wrap (Z.of_nat index * size_wrap NUM) * size_wrap _neq))
  = (index * Z.to_nat (NUM * _neq))%nat.
Proof.
  intros HN Hq Hb. unfold size_wrap.
  rewrite Z.mul_mod_idemp_l, Z.mul_mod_idemp_r by lia.
  replace (Z.of_nat index * (NUM mod 2 ^ 64) * _neq)%Z
    with ((NUM mod 2 ^ 64) * (Z.of_nat index * _neq))%Z by ring.
  rewrite Z.mul_mod_idemp_l by lia.
  replace (NUM * (Z.of_nat index * _neq))%Z with (Z.of_nat index * (NUM * _neq))%Z by ring.
  rewrite Z.mod_small by nia.
  rewrite Z2Nat.inj_mul by nia. now rewrite Nat2Z.id.
Qed.

Lemma log_appends (_neq NUM : Z) (_log : list vec) (t : float) (phi : vec) :
  (0 <= NUM * _neq < 2 ^ 31 - 1)%Z ->
  (Z.to_nat (NUM * _neq) <= length phi)%nat ->
  log _neq _log NUM t phi = Some (_log ++ [t :: firstn (Z.to_nat (NUM * _neq)) phi]).
Proof.
  intros Hb H. unfold log. rewrite block_doubles_small by exact Hb.
  rewrite (int_wrap_small (NUM * _neq)) by lia. rewrite int_wrap_small by lia.
  replace (1 + NUM * _neq <=? 0)%Z with false by (symmetry; apply Z.leb_gt; lia).
  replace (Z.to_nat (1 + NUM * _neq)) with (S (Z.to_nat (NUM * _neq))) by lia.
  remember (Z.to_nat (NUM * _neq)) as n.
  unfold memcpy, read_block. cbn [Nat.add repeat upd skipn length firstn].
  apply Nat.leb_le in H. rewrite H.
  rewrite repeat_length, Nat.leb_refl.
  rewrite skipn_all2 by (rewrite repeat_length; lia).
  now rewrite app_nil_r.
Qed.

Lemma log_each_appends (_neq NUM : Z) (recs : list (float * vec)) :
  forall _log,
    (0 <= NUM * _neq < 2 ^ 31 - 1)%Z ->
    (forall r, In r recs -> (Z.to_nat (NUM * _neq) <= length (snd r))%nat) ->
    log_each _neq NUM recs _log
    = Some (_log ++ map (fun r => fst r :: firstn (Z.to_nat (NUM * _neq)) (snd r)) recs).
Proof.
  induction recs as [|[t phi] recs IH]; simpl; intros lg Hb H.
  - now rewrite app_nil_r.
  - rewrite log_appends by (try exact Hb; apply (H (t, phi)); now left).
    rewrite IH by (try exact Hb; intros r Hr; apply H; now right).
    now rewrite <- app_assoc.
Qed.

Lemma getLog_from_fills (_neq NUM : Z) (entries : list vec) :
  (0 <= NUM)%Z -> (0 <= _neq)%Z -> (NUM * _neq < 2 ^ 31 - 1)%Z ->
  forall (index : nat) (T0 T1 P0 P1 : vec),
    (Z.of_nat (index + length entries) * (NUM * _neq) < 2 ^ 64)%Z ->
    length T0 = index -> length P0 = (index * Z.to_nat (NUM * _neq))%nat ->
    length T1 = length entries ->
    length P1 = (length entries * Z.to_nat (NUM * _neq))%nat ->
    (forall en, In en entries -> length en = S (Z.to_nat (NUM * _neq))) ->
    getLog_from _neq NUM entries index (T0 ++ T1) (P0 ++ P1)
    = Some (T0 ++ map (fun en => en.[0]) entries, P0 ++ concat (map (@tl float) entries)).
Proof.
  intros HN Hq Hb. remember (Z.to_nat (NUM * _neq)) as n.
  induction entries as [|en rest IH]; intros index T0 T1 P0 P1 Hs HT0 HP0 HT1 HP1 Hen.
  - destruct T1; [|discriminate]. destruct P1; [|discriminate]. reflexivity.
  - cbn [getLog_from].
    assert (Len : length en = S n) by (apply Hen; now left).
    destruct en as [|t0 body]; [discriminate|]. cbn [nth_error].
    cbn [length] in Len. injection Len as Len.
    destruct T1 as [|x T1]; [discriminate|]. cbn [length] in HT1, HP1, Hs.
    injection HT1 as HT1.
    assert (Lt : (index <? length (T0 ++ x :: T1))%nat = true).
    { apply Nat.ltb_lt. rewrite length_app. cbn [length]. lia. }
    rewrite Lt. subst index. rewrite upd_app.
    rewrite offset_small by (try assumption; nia).
    rewrite block_doubles_small by nia. rewrite <- Heqn.
    unfold memcpy, read_block. cbn [length skipn].
    replace (1 + n <=? S (length body))%nat with true
      by (symmetry; apply Nat.leb_le; lia).
    replace (length T0 * n + n <=? length (P0 ++ P1))%nat with true
      by (symmetry; apply Nat.leb_le; rewrite length_app; cbn [Nat.mul] in HP1; lia).
    rewrite <- HP0. rewrite firstn_app, firstn_all, Nat.sub_diag. cbn [firstn].
    rewrite app_nil_r. rewrite skipn_app, skipn_all2 by lia.
    replace (length P0 + n - length P0)%nat with n by lia.
    cbn [app]. rewrite <- Len, firstn_all.
    replace (T0 ++ t0 :: T1) with ((T0 ++ [t0]) ++ T1) by (now rewrite <- app_assoc).
    rewrite app_assoc.
    rewrite (IH (S (length T0)) (T0 ++ [t0]) T1 (P0 ++ body) (skipn (length body) P1)).
    + cbn [map concat tl get nth]. now rewrite <- !app_assoc.
    + replace (S (length T0) + length rest)%nat with (length T0 + S (length rest))%nat
        by lia. exact Hs.
    + rewrite length_app. cbn [length]. lia.
    + rewrite length_app. cbn [Nat.mul]. lia.
    + exact HT1.
    + rewrite length_skipn. cbn [Nat.mul] in HP1. lia.
    + intros en' Hin. apply Hen. now right.
Qed.

(** What [log] stored, [getLog] hands back.  For [NUM] and [_neq] that are
    not negative and whose product [n] stays below [INT_MAX] (so that the
    [int] expressions [1 + NUM * _neq] and [NUM * _neq] do not overflow) and
    a log whose total size stays inside [std::size_t]: after one call of
    [log] per record, [numSteps] counts the records, and [getLog] with the
    same [NUM] into arrays of matching size fills [times] with the logged
    times and [phi] with the logged blocks of [n] values, in the order of
    the calls and whatever the arrays held before. *)
Theorem getLog_returns_the_log (_neq NUM : Z) (recs : list (float * vec))
    (times phi : vec) :
  (0 <= NUM)%Z -> (0 <= _neq)%Z -> (NUM * _neq < 2 ^ 31 - 1)%Z ->
  (Z.of_nat (length recs) * (NUM * _neq) < 2 ^ 64)%Z ->
  (forall r, In r recs -> (Z.to_nat (NUM * _neq) <= length (snd r))%nat) ->
  length times = length recs ->
  length phi = (length recs * Z.to_nat (NUM * _neq))%nat ->
  exists _log,
    log_each _neq NUM recs [] = Some _log /\
    numSteps _log = length recs /\
    getLog _neq _log NUM times phi
    = Some (map fst recs,
            concat (map (fun r => firstn (Z.to_nat (NUM * _neq)) (snd r)) recs)).
Proof.
  intros HN Hq Hb Hs Hr Ht Hp.
  assert (Hb' : (0 <= NUM * _neq < 2 ^ 31 - 1)%Z) by nia.
  eexists. split; [apply log_each_appends; assumption|].
  cbn [app]. split; [unfold numSteps; apply length_map|].
  unfold getLog.
  rewrite (getLog_from_fills _neq NUM _ HN Hq Hb 0 [] times [] phi);
    try assumption; try reflexivity; try (rewrite length_map; assumption).
  - cbn [app]. rewrite !map_map. f_equal.
  - intros en Hin. apply in_map_iff in Hin. destruct Hin as (r & <- & Hin).
    cbn [length]. rewrite length_firstn, Nat.min_l by exact (Hr r Hin). reflexivity.
Qed.

(** Two records of two values each. *)
Lemma getLog_returns_the_log_witness :
  exists _log,
    log_each 2 1 [(1, [10; 11]); (2, [20; 21])] [] = Some _log /\
    numSteps _log = 2%nat /\
    getLog 2 _log 1 [0; 0] [0; 0; 0; 0] = Some ([1; 2], [10; 11; 20; 21]).
Proof.
  apply (getLog_returns_the_log 2 1 [(1, [10; 11]); (2, [20; 21])] [0; 0] [0; 0; 0; 0]).
  - lia.
  - lia.
  - reflexivity.
  - reflexivity.
  - intros r [<-|[<-|[]]]; simpl; lia.
  - reflexivity.
  - reflexivity.
Defined.

